(** * Communication intrinsics of the tile language: operator registry and catalog

    A shallow embedding of [src/op/comm.cc] and [src/op/comm.h]: the eight
    communication builtins ([comm_put] ... [comm_current_core]), the
    namespace-scope registration statements that [TIR_DEFINE_TL_BUILTIN]
    expands to, and the accessor functions with their function-local
    static caches.

    The operator registry itself ([TVM_REGISTER_OP], [Op::Get], [set_attr],
    [set_num_inputs]) is declared in headers that are not part of these
    sources ([tvm/tir/op.h], [operator.h]); it is modelled from the
    specification, in module [Registry]. *)

From stdpp Require Import gmap strings list fin_maps.
From Stdlib Require Import ZArith.

Open Scope string_scope.

(** ** Errors and the result monad *)

(** Modelled from the spec: the error taxonomy of the registry, a
    conflicting registration (fatal) and the lookup of an unknown name. *)
Inductive Error : Type :=
| ConflictingRegistration (name kind : string)
| NotFound (name : string).

Inductive result (A : Type) : Type :=
| Ok (a : A)
| Err (e : Error).
Arguments Ok {A} a.
Arguments Err {A} e.

#[global] Instance result_ret : MRet result := fun _ a => Ok a.
#[global] Instance result_bind : MBind result := fun _ _ k m =>
  match m with
  | Ok a => k a
  | Err e => Err e
  end.

(** ** The registry *)

Module Registry.

(** Modelled from the spec: the enumerated effect tag ("Effect
    Classification"); its declaration lives in [tvm/tir/op.h], which is not
    part of these sources.  This module uses exactly one value, [kOpaque]. *)
Inductive CallEffectKind : Type :=
| kExprAnnotation
| kPure
| kReadState
| kUpdateState
| kOpaque.

#[global] Instance CallEffectKind_eq_dec : EqDecision CallEffectKind.
Proof. solve_decision. Defined.

(** Modelled from the spec: the "typed value" of an attribute binding.
    [StringObj] carries a printer name, [Integer] an effect tag wrapped as
    the source wraps it ([Integer(CallEffectKind::kOpaque)]), [IntImm] a
    plain integer such as an argument count. *)
Inductive AttrValue : Type :=
| StringObj (s : string)
| Integer (k : CallEffectKind)
| IntImm (z : Z).

#[global] Instance AttrValue_eq_dec : EqDecision AttrValue.
Proof. solve_decision. Defined.

(** Modelled from the spec: an operator identity, "identified by a string
    name" and interned in the registry's table ("name → identity", compared
    by "reference/index").  [op_index] is the slot the identity was given
    when it was created. *)
Record Op : Type := mkOp { op_name : string; op_index : nat }.

#[global] Instance Op_eq_dec : EqDecision Op.
Proof. solve_decision. Defined.

(** Modelled from the spec: the "process-wide, name-keyed table mapping a
    unique string identifier to an opaque operator identity object, with
    attached typed attributes". *)
Record OpRegistry : Type := mkRegistry {
  entry_map : gmap string Op;
  num_entries : nat;
  attrs : gmap (nat * string) AttrValue
}.

Definition empty : OpRegistry :=
  {| entry_map := ∅; num_entries := 0; attrs := ∅ |}.

(** Modelled from the spec: [lookup(name) -> Identity option], "pure read
    access; does not create". *)
Definition lookup (name : string) (r : OpRegistry) : option Op :=
  entry_map r !! name.

(** Modelled from the spec: [register_or_get(name) -> Identity], "returns
    the unique identity for [name], creating it on first call".  This is
    what [TVM_REGISTER_OP(name)] runs. *)
Definition RegisterOrGet (name : string) (r : OpRegistry) : Op * OpRegistry :=
  match entry_map r !! name with
  | Some op => (op, r)
  | None =>
      let op := {| op_name := name; op_index := num_entries r |} in
      (op, {| entry_map := <[name := op]> (entry_map r);
              num_entries := S (num_entries r);
              attrs := attrs r |})
  end.

(** Modelled from the spec: [get_attribute(identity, kind) -> value
    option]. *)
Definition get_attr (op : Op) (kind : string) (r : OpRegistry) : option AttrValue :=
  attrs r !! (op_index op, kind).

(** Modelled from the spec: [set_attribute(identity, kind, value)];
    "overwriting an existing binding for the same (identity, kind) pair with
    a different value is an error; re-binding an identical value is a
    no-op".  The entry is handed back so that calls chain as in the
    source. *)
Definition set_attr (kind : string) (value : AttrValue) (op : Op) (r : OpRegistry)
  : result (Op * OpRegistry) :=
  match attrs r !! (op_index op, kind) with
  | Some old =>
      if decide (old = value) then Ok (op, r)
      else Err (ConflictingRegistration (op_name op) kind)
  | None =>
      Ok (op, {| entry_map := entry_map r;
                 num_entries := num_entries r;
                 attrs := <[(op_index op, kind) := value]> (attrs r) |})
  end.

(** Modelled from the spec: the arity constraint is one more attribute
    kind ("expected argument count"). *)
Definition num_inputs_kind : string := "num_inputs".

(** Modelled from the spec: [set_num_inputs(n)] "attaches the arity
    constraint" to the entry. *)
Definition set_num_inputs (n : Z) (op : Op) (r : OpRegistry)
  : result (Op * OpRegistry) :=
  set_attr num_inputs_kind (IntImm n) op r.

(** Modelled from the spec: [Op::Get(name)], the lookup an accessor makes;
    an unknown name is the "not found" error. *)
Definition Get (name : string) (r : OpRegistry) : result Op :=
  match lookup name r with
  | Some op => Ok op
  | None => Err (NotFound name)
  end.

(** Modelled from the spec: an arity constraint is "either a fixed
    non-negative integer or a sentinel meaning variable, any count ≥ 0
    accepted"; the source writes the sentinel as [-1]. *)
Inductive Arity : Type :=
| Fixed (n : nat)
| Variadic.

(** Modelled from the spec: how the stored argument count is read. *)
Definition arity_of (z : Z) : Arity :=
  if (z <? 0)%Z then Variadic else Fixed (Z.to_nat z).

(** Modelled from the spec: the check a call-site constructor makes with
    the arity ("count, not type"). *)
Definition accepts (a : Arity) (count : nat) : bool :=
  match a with
  | Fixed n => Nat.eqb n count
  | Variadic => true
  end.

(** Modelled from the spec: the arity attribute of an identity. *)
Definition get_arity (op : Op) (r : OpRegistry) : option Arity :=
  match get_attr op num_inputs_kind r with
  | Some (IntImm z) => Some (arity_of z)
  | _ => None
  end.

End Registry.

Import Registry.

(** ** The catalog of [comm.cc] *)

(** The eight accessors declared in [comm.h]. *)
Inductive TLBuiltin : Type :=
| comm_put
| comm_broadcast
| comm_allgather
| comm_reduce
| comm_barrier
| comm_fence
| CoreId
| comm_current_core.

#[global] Instance TLBuiltin_eq_dec : EqDecision TLBuiltin.
Proof. solve_decision. Defined.

(** [#OpName]: the stringised macro argument. *)
Definition OpName (b : TLBuiltin) : string :=
  match b with
  | comm_put => "comm_put"
  | comm_broadcast => "comm_broadcast"
  | comm_allgather => "comm_allgather"
  | comm_reduce => "comm_reduce"
  | comm_barrier => "comm_barrier"
  | comm_fence => "comm_fence"
  | CoreId => "CoreId"
  | comm_current_core => "comm_current_core"
  end.

(** ["tl." #OpName]: the key under which the operator is registered. *)
Definition registry_name (b : TLBuiltin) : string := "tl." ++ OpName b.

(** The argument each registration statement passes to [set_num_inputs]
    (lines 19-34 of [comm.cc]). *)
Definition num_inputs (b : TLBuiltin) : Z :=
  match b with
  | comm_put => -1
  | comm_broadcast => -1
  | comm_allgather => -1
  | comm_reduce => -1
  | comm_barrier => -1
  | comm_fence => 0
  | CoreId => 1
  | comm_current_core => 0
  end.

(** The registration half of [TIR_DEFINE_TL_BUILTIN(OpName)]:
    [TVM_REGISTER_OP("tl." #OpName).set_attr<TScriptPrinterName>(
       "TScriptPrinterName", #OpName)]. *)
Definition TIR_DEFINE_TL_BUILTIN (b : TLBuiltin) (r : OpRegistry)
  : result (Op * OpRegistry) :=
  let '(e, r) := RegisterOrGet (registry_name b) r in
  set_attr "TScriptPrinterName" (StringObj (OpName b)) e r.

(** One namespace-scope statement of [comm.cc]:
    [TIR_DEFINE_TL_BUILTIN(b).set_num_inputs(n).set_attr<TCallEffectKind>(
       "TCallEffectKind", Integer(CallEffectKind::kOpaque));] *)
Definition register_builtin (b : TLBuiltin) (r : OpRegistry) : result OpRegistry :=
  '(e, r) ← TIR_DEFINE_TL_BUILTIN b r ;
  '(e, r) ← set_num_inputs (num_inputs b) e r ;
  '(_, r) ← set_attr "TCallEffectKind" (Integer kOpaque) e r ;
  Ok r.

(** The statements in the order of the translation unit: what runs when the
    module's namespace-scope objects are initialised. *)
Definition static_init (r : OpRegistry) : result OpRegistry :=
  r ← register_builtin comm_put r ;
  r ← register_builtin comm_broadcast r ;
  r ← register_builtin comm_allgather r ;
  r ← register_builtin comm_reduce r ;
  r ← register_builtin comm_barrier r ;
  r ← register_builtin comm_fence r ;
  r ← register_builtin CoreId r ;
  register_builtin comm_current_core r.

(** The process as this translation unit sees it: the registry, and for
    every accessor its function-local [static const Op &op], empty until
    the accessor is first called. *)
Record Process : Type := mkProcess {
  registry : OpRegistry;
  cache : TLBuiltin → option Op
}.

(** The initialisation of one accessor's static reference. *)
Definition set_cache (b : TLBuiltin) (op : Op) (c : TLBuiltin → option Op)
  : TLBuiltin → option Op :=
  fun b' => if decide (b' = b) then Some op else c b'.

(** The accessor half of [TIR_DEFINE_TL_BUILTIN(OpName)]:
    [const Op &OpName() { static const Op &op = Op::Get("tl." #OpName);
                          return op; }] *)
Definition accessor (b : TLBuiltin) (p : Process) : result (Op * Process) :=
  match cache p b with
  | Some op => Ok (op, p)
  | None =>
      op ← Get (registry_name b) (registry p) ;
      Ok (op, {| registry := registry p; cache := set_cache b op (cache p) |})
  end.

(** No accessor has run yet. *)
Definition no_cache : TLBuiltin → option Op := fun _ => None.

(** The process once the module is loaded: its registration statements
    have run on a registry nobody else has touched, no accessor has been
    called. *)
Definition module_loaded : result Process :=
  r ← static_init Registry.empty ;
  Ok {| registry := r; cache := no_cache |}.

(** The registration statements of any translation unit linked into the
    process, as the registry sees them: [TVM_REGISTER_OP(name)] alone, or
    followed by one [set_attr]. *)
Inductive RegCall : Type :=
| CRegister (name : string)
| CSetAttr (name kind : string) (value : AttrValue).

(** One registration call. *)
Definition exec_call (c : RegCall) (r : OpRegistry) : result OpRegistry :=
  match c with
  | CRegister name => Ok (RegisterOrGet name r).2
  | CSetAttr name kind value =>
      let '(e, r) := RegisterOrGet name r in
      '(_, r) ← set_attr kind value e r;
      Ok r
  end.

(** Registration calls in order; the first error aborts. *)
Fixpoint exec_calls (cs : list RegCall) (r : OpRegistry) : result OpRegistry :=
  match cs with
  | [] => Ok r
  | c :: cs => r ← exec_call c r; exec_calls cs r
  end.

(** The name a registration call is about. *)
Definition call_name (c : RegCall) : string :=
  match c with
  | CRegister name => name
  | CSetAttr name _ _ => name
  end.

(** The three bindings one statement of [comm.cc] makes, as calls. *)
Definition builtin_calls (b : TLBuiltin) : list RegCall :=
  [CSetAttr (registry_name b) "TScriptPrinterName" (StringObj (OpName b));
   CSetAttr (registry_name b) num_inputs_kind (IntImm (num_inputs b));
   CSetAttr (registry_name b) "TCallEffectKind" (Integer kOpaque)].

(** All statements of [comm.cc], in order, as calls. *)
Definition static_calls : list RegCall :=
  builtin_calls comm_put ++ builtin_calls comm_broadcast ++
  builtin_calls comm_allgather ++ builtin_calls comm_reduce ++
  builtin_calls comm_barrier ++ builtin_calls comm_fence ++
  builtin_calls CoreId ++ builtin_calls comm_current_core.

(** What a registration call binds. *)
Definition binds (name kind : string) (c : RegCall) : Prop :=
  match c with
  | CRegister _ => False
  | CSetAttr name' kind' _ => name' = name ∧ kind' = kind
  end.

(** [get_attribute] addressed by name, for statements about entries of
    names rather than of identities. *)
Definition get_attr_of (name kind : string) (r : OpRegistry) : option AttrValue :=
  op ← Registry.lookup name r; get_attr op kind r.

(** What the rest of the compiler does with this module once it is loaded:
    it calls an accessor, or asks the registry for a name again. *)
Inductive Event : Type :=
| CallAccessor (b : TLBuiltin)
| CallRegisterOrGet (name : string).

(** The registry name an event asks for. *)
Definition requested (ev : Event) : string :=
  match ev with
  | CallAccessor b => registry_name b
  | CallRegisterOrGet name => name
  end.

(** One event, with the identity handed back to the caller. *)
Definition step (ev : Event) (p : Process) : result (Op * Process) :=
  match ev with
  | CallAccessor b => accessor b p
  | CallRegisterOrGet name =>
      let '(op, r) := RegisterOrGet name (registry p) in
      Ok (op, {| registry := r; cache := cache p |})
  end.

(** Runs the events in order; the log pairs every requested name with the
    identity that came back. *)
Fixpoint run (evs : list Event) (p : Process) : result (list (string * Op) * Process) :=
  match evs with
  | [] => Ok ([], p)
  | ev :: evs =>
      '(op, p) ← step ev p;
      '(log, p) ← run evs p;
      Ok ((requested ev, op) :: log, p)
  end.

(** The registry and the identities the registration statements of
    [comm.cc] leave behind, in the order of the translation unit. *)
Definition loaded_registry : OpRegistry :=
  match static_init Registry.empty with
  | Ok r => r
  | Err _ => Registry.empty
  end.

(** The loaded process, before any accessor is called. *)
Definition loaded_process : Process :=
  {| registry := loaded_registry; cache := no_cache |}.

(** The slot each statement of [comm.cc] is given: its position in the
    translation unit. *)
Definition builtin_index (b : TLBuiltin) : nat :=
  match b with
  | comm_put => 0
  | comm_broadcast => 1
  | comm_allgather => 2
  | comm_reduce => 3
  | comm_barrier => 4
  | comm_fence => 5
  | CoreId => 6
  | comm_current_core => 7
  end.

(** The identity the loaded registry holds for a builtin. *)
Definition builtin_op (b : TLBuiltin) : Op :=
  {| op_name := registry_name b; op_index := builtin_index b |}.

(** Follows the spec's words, not the code: the arity column of the
    catalog table, to be compared with what the statements bind. *)
Definition documented_arity (b : TLBuiltin) : Arity :=
  match b with
  | comm_fence | comm_current_core => Fixed 0
  | CoreId => Fixed 1
  | comm_put | comm_broadcast | comm_allgather | comm_reduce | comm_barrier => Variadic
  end.

(** A process that never ran the registration statements. *)
Definition unloaded_process : Process :=
  {| registry := Registry.empty; cache := no_cache |}.

(** The registry after the statements of the given builtins only. *)
Definition registry_after (bs : list TLBuiltin) : OpRegistry :=
  foldl (λ r b, match register_builtin b r with Ok r' => r' | Err _ => r end)
        Registry.empty bs.

(** Lazy registration, as a property of the process: whenever a builtin
    is found registered, some accessor has been called before. *)
Definition registers_lazily : Prop :=
  ∀ (evs : list Event) (p0 : Process) (log : list (string * Op)) (p : Process)
    (b : TLBuiltin),
    module_loaded = Ok p0 → run evs p0 = Ok (log, p) →
    is_Some (Registry.lookup (registry_name b) (registry p)) →
    ∃ b', CallAccessor b' ∈ evs.

(** ** Registry invariants *)

(** Identities are interned: an entry carries its own name, its slot is
    below the number of entries, no two names share a slot, and attributes
    are only bound at slots in use. *)
Record wf (r : OpRegistry) : Prop := mkWf {
  wf_name : ∀ name op, entry_map r !! name = Some op → op_name op = name;
  wf_index : ∀ name op, entry_map r !! name = Some op → op_index op < num_entries r;
  wf_inj : ∀ n1 n2 o1 o2,
    entry_map r !! n1 = Some o1 → entry_map r !! n2 = Some o2 →
    op_index o1 = op_index o2 → n1 = n2;
  wf_attrs : ∀ i k v, attrs r !! (i, k) = Some v → i < num_entries r
}.

(** The consistency a process keeps: every builtin is registered under its
    prefixed name with the identity of the loaded registry, the attribute
    table is the loaded one, and a filled cache holds that identity. *)
Record consistent (p : Process) : Prop := mkConsistent {
  cons_lookup : ∀ b, Registry.lookup (registry_name b) (registry p) = Some (builtin_op b);
  cons_attrs : attrs (registry p) = attrs loaded_registry;
  cons_cache : ∀ b op, cache p b = Some op → op = builtin_op b
}.

(** ** Definitions for the statements and accessors on any registry *)

(** What one statement of [comm.cc] binds to its operator, kind by kind:
    the printer name, the argument count and the effect kind, nothing
    else. *)
Definition builtin_attr (b : TLBuiltin) (kind : string) : option AttrValue :=
  if decide (kind = "TScriptPrinterName") then Some (StringObj (OpName b))
  else if decide (kind = num_inputs_kind) then Some (IntImm (num_inputs b))
  else if decide (kind = "TCallEffectKind") then Some (Integer kOpaque)
  else None.

(** The statements of the given builtins, run in the given order. *)
Fixpoint register_all (bs : list TLBuiltin) (r : OpRegistry) : result OpRegistry :=
  match bs with
  | [] => Ok r
  | b :: bs => r ← register_builtin b r; register_all bs r
  end.

(** The order in which [comm.cc] lists its statements. *)
Definition statement_order : list TLBuiltin :=
  [comm_put; comm_broadcast; comm_allgather; comm_reduce;
   comm_barrier; comm_fence; CoreId; comm_current_core].

(** The number of arguments in the call signature that [comm.h] documents
    for each accessor, e.g. [comm_put(src_buffer, dst_buffer, dst_core,
    size)]. *)
Definition documented_argc (b : TLBuiltin) : nat :=
  match b with
  | comm_put => 4
  | comm_broadcast => 3
  | comm_allgather => 3
  | comm_reduce => 4
  | comm_barrier => 1
  | comm_fence => 0
  | CoreId => 1
  | comm_current_core => 0
  end.

(** A process right after its registry was set up: no accessor called. *)
Definition fresh_process (r : OpRegistry) : Process :=
  {| registry := r; cache := no_cache |}.

(** A filled cache holds what the registry holds under the accessor's
    prefixed name. *)
Definition coherent (p : Process) : Prop :=
  ∀ b op, cache p b = Some op →
          Registry.lookup (registry_name b) (registry p) = Some op.

(** A registry in which another module has registered an operator of its
    own before this module is loaded. *)
Definition other_registry : OpRegistry :=
  {| entry_map := <["tir.ret" := {| op_name := "tir.ret"; op_index := 0 |}]> ∅;
     num_entries := 1;
     attrs := <[(0, "TCallEffectKind") := Integer kPure]> ∅ |}.

Lemma static_init_loaded : static_init Registry.empty = Ok loaded_registry.
Proof. vm_compute. reflexivity. Qed.

Lemma module_loaded_eq : module_loaded = Ok loaded_process.
Proof. unfold module_loaded. rewrite static_init_loaded. reflexivity. Qed.

Lemma loaded_lookup b :
  Registry.lookup (registry_name b) loaded_registry = Some (builtin_op b).
Proof. destruct b; vm_compute; reflexivity. Qed.

(** ** The registry primitives *)

Section registry_primitives.
Implicit Types (r : OpRegistry) (name kind : string) (op : Op) (v : AttrValue).

Lemma wf_empty : wf Registry.empty.
Proof. split; simpl; intros *; rewrite lookup_empty; discriminate. Qed.

Lemma RegisterOrGet_lookup name r :
  Registry.lookup name (RegisterOrGet name r).2 = Some (RegisterOrGet name r).1.
Proof.
  unfold RegisterOrGet, Registry.lookup.
  destruct (entry_map r !! name) eqn:E; simpl; [exact E|].
  apply lookup_insert_eq.
Qed.

Lemma RegisterOrGet_known name op r :
  Registry.lookup name r = Some op → RegisterOrGet name r = (op, r).
Proof. unfold RegisterOrGet, Registry.lookup. intros ->. reflexivity. Qed.

Lemma RegisterOrGet_idem name r :
  RegisterOrGet name (RegisterOrGet name r).2
  = ((RegisterOrGet name r).1, (RegisterOrGet name r).2).
Proof. apply RegisterOrGet_known, RegisterOrGet_lookup. Qed.

Lemma RegisterOrGet_other name name' r :
  name' ≠ name →
  Registry.lookup name' (RegisterOrGet name r).2 = Registry.lookup name' r.
Proof.
  intros Hne. unfold RegisterOrGet, Registry.lookup.
  destruct (entry_map r !! name); simpl; [reflexivity|].
  apply lookup_insert_ne. congruence.
Qed.

Lemma RegisterOrGet_mono name name' op r :
  Registry.lookup name' r = Some op →
  Registry.lookup name' (RegisterOrGet name r).2 = Some op.
Proof.
  intros H. destruct (decide (name' = name)) as [->|Hne].
  - rewrite (RegisterOrGet_known _ _ _ H). exact H.
  - rewrite RegisterOrGet_other; assumption.
Qed.

Lemma RegisterOrGet_attrs name r : attrs (RegisterOrGet name r).2 = attrs r.
Proof. unfold RegisterOrGet. destruct (entry_map r !! name); reflexivity. Qed.

Lemma RegisterOrGet_wf name r : wf r → wf (RegisterOrGet name r).2.
Proof.
  intros [Hn Hi Hj Ha]. unfold RegisterOrGet.
  destruct (entry_map r !! name) eqn:E; simpl; [by split|].
  split; simpl.
  - intros n o. rewrite lookup_insert. case_decide; [|by eauto].
    intros [= <-]. by subst.
  - intros n o. rewrite lookup_insert. case_decide.
    + intros [= <-]. simpl. lia.
    + intros H'. apply Hi in H'. lia.
  - intros n1 n2 o1 o2. rewrite !lookup_insert.
    repeat case_decide; subst; try congruence.
    + intros [= <-] H2 Heq. apply Hi in H2. simpl in Heq. lia.
    + intros H1 [= <-] Heq. apply Hi in H1. simpl in Heq. lia.
    + by eauto.
  - intros i k v Hv. apply Ha in Hv. lia.
Qed.

Lemma set_attr_Ok kind v op r op' r' :
  set_attr kind v op r = Ok (op', r') →
  op' = op ∧ entry_map r' = entry_map r ∧ num_entries r' = num_entries r
  ∧ attrs r' = <[(op_index op, kind) := v]> (attrs r).
Proof.
  unfold set_attr. destruct (attrs r !! (op_index op, kind)) as [old|] eqn:E.
  - case_decide; [|discriminate]. intros [= <- <-]. subst old.
    by rewrite insert_id.
  - by intros [= <- <-].
Qed.

Lemma set_attr_lookup kind v op r op' r' name :
  set_attr kind v op r = Ok (op', r') →
  Registry.lookup name r' = Registry.lookup name r.
Proof.
  intros (_ & He & _)%set_attr_Ok. unfold Registry.lookup. by rewrite He.
Qed.

Lemma set_attr_get_same kind v op r op' r' :
  set_attr kind v op r = Ok (op', r') → get_attr op kind r' = Some v.
Proof.
  intros (_ & _ & _ & Ha)%set_attr_Ok. unfold get_attr.
  rewrite Ha. apply lookup_insert_eq.
Qed.

Lemma set_attr_get_other kind v op r op' r' o k :
  set_attr kind v op r = Ok (op', r') →
  (op_index o, k) ≠ (op_index op, kind) →
  get_attr o k r' = get_attr o k r.
Proof.
  intros (_ & _ & _ & Ha)%set_attr_Ok Hne. unfold get_attr.
  rewrite Ha. apply lookup_insert_ne. congruence.
Qed.

Lemma set_attr_conflict kind v old op r :
  get_attr op kind r = Some old → old ≠ v →
  set_attr kind v op r = Err (ConflictingRegistration (op_name op) kind).
Proof.
  unfold get_attr, set_attr. intros -> Hne. by rewrite decide_False.
Qed.

Lemma set_attr_rebind kind v op r :
  get_attr op kind r = Some v → set_attr kind v op r = Ok (op, r).
Proof. unfold get_attr, set_attr. intros ->. by rewrite decide_True. Qed.

Lemma set_attr_wf kind v op r op' r' :
  wf r → op_index op < num_entries r →
  set_attr kind v op r = Ok (op', r') → wf r'.
Proof.
  intros [Hn Hi Hj Ha] Hlt (_ & He & Hc & Hat)%set_attr_Ok.
  split; rewrite ?He, ?Hc, ?Hat; try assumption.
  intros i k v'. rewrite lookup_insert. case_decide; [|by eauto].
  intros _. by simplify_eq.
Qed.

End registry_primitives.

(** ** Registration calls *)

Section registration_calls.
Implicit Types (r : OpRegistry) (name kind : string) (op : Op) (c : RegCall).

(** Inversion of a [set_attr] registration call. *)
Lemma exec_CSetAttr_Ok name kind v r r' :
  exec_call (CSetAttr name kind v) r = Ok r' →
  set_attr kind v (RegisterOrGet name r).1 (RegisterOrGet name r).2
  = Ok ((RegisterOrGet name r).1, r').
Proof.
  simpl. destruct (RegisterOrGet name r) as [e r0]; simpl.
  destruct (set_attr kind v e r0) as [[e' r1]|] eqn:E; simpl; [|discriminate].
  intros [= <-]. by apply set_attr_Ok in E as (-> & _).
Qed.

Lemma RegisterOrGet_index name r :
  wf r → op_index (RegisterOrGet name r).1 < num_entries (RegisterOrGet name r).2.
Proof.
  intros Hwf%(RegisterOrGet_wf name).
  exact (wf_index _ Hwf _ _ (RegisterOrGet_lookup name r)).
Qed.

Lemma exec_call_wf c r r' : wf r → exec_call c r = Ok r' → wf r'.
Proof.
  intros Hwf. destruct c as [name|name kind v].
  - intros [= <-]. by apply RegisterOrGet_wf.
  - intros H%exec_CSetAttr_Ok. eapply set_attr_wf; [| |exact H].
    + by apply RegisterOrGet_wf.
    + by apply RegisterOrGet_index.
Qed.

Lemma exec_calls_wf cs : ∀ r r', wf r → exec_calls cs r = Ok r' → wf r'.
Proof.
  induction cs as [|c cs IH]; simpl; intros r r' Hwf.
  - by intros [= <-].
  - destruct (exec_call c r) as [r1|] eqn:E; simpl; [|discriminate].
    apply IH. by eapply exec_call_wf.
Qed.

(** Every registry the calls can build from the empty one is well formed. *)
Lemma reachable_wf cs r : exec_calls cs Registry.empty = Ok r → wf r.
Proof. apply exec_calls_wf, wf_empty. Qed.

Lemma exec_call_mono c r r' name op :
  exec_call c r = Ok r' →
  Registry.lookup name r = Some op → Registry.lookup name r' = Some op.
Proof.
  destruct c as [n|n kind v].
  - intros [= <-]. apply RegisterOrGet_mono.
  - intros H%exec_CSetAttr_Ok Hl.
    rewrite (set_attr_lookup _ _ _ _ _ _ name H). by apply RegisterOrGet_mono.
Qed.

Lemma exec_call_other c r r' name :
  exec_call c r = Ok r' → name ≠ call_name c →
  Registry.lookup name r' = Registry.lookup name r.
Proof.
  destruct c as [n|n kind v]; simpl call_name.
  - intros [= <-]. apply RegisterOrGet_other.
  - intros H%exec_CSetAttr_Ok Hne.
    rewrite (set_attr_lookup _ _ _ _ _ _ name H). by apply RegisterOrGet_other.
Qed.

(** A call leaves alone every binding it does not make itself. *)
Lemma exec_call_get_attr c r r' name op kind :
  wf r → exec_call c r = Ok r' →
  Registry.lookup name r = Some op → ¬ binds name kind c →
  get_attr op kind r' = get_attr op kind r.
Proof.
  intros Hwf. destruct c as [n|n k v]; simpl binds.
  - intros [= <-] _ _. unfold get_attr. by rewrite RegisterOrGet_attrs.
  - intros H%exec_CSetAttr_Ok Hl Hnb.
    rewrite (set_attr_get_other _ _ _ _ _ _ op kind H).
    + unfold get_attr. by rewrite RegisterOrGet_attrs.
    + intros [= Hi ->]. apply Hnb. split; [|reflexivity].
      pose proof (RegisterOrGet_wf n r Hwf) as Hwf'.
      apply (wf_inj _ Hwf' n name _ _ (RegisterOrGet_lookup n r)
               (RegisterOrGet_mono n name op r Hl)). by symmetry.
Qed.

(** An identity that a call creates starts without attributes. *)
Lemma RegisterOrGet_unbound name n kind r :
  wf r → get_attr_of name kind r = None →
  get_attr_of name kind (RegisterOrGet n r).2 = None.
Proof.
  intros Hwf. unfold get_attr_of.
  destruct (Registry.lookup name r) as [op|] eqn:El; simpl.
  - intros Hg. rewrite (RegisterOrGet_mono n name op r El). simpl.
    unfold get_attr in *. by rewrite RegisterOrGet_attrs.
  - intros _. destruct (decide (name = n)) as [->|Hne].
    + rewrite RegisterOrGet_lookup. simpl. unfold get_attr.
      rewrite RegisterOrGet_attrs. unfold RegisterOrGet.
      unfold Registry.lookup in El. rewrite El. simpl.
      destruct (attrs r !! (num_entries r, kind)) as [v|] eqn:Ev; [|reflexivity].
      apply (wf_attrs _ Hwf) in Ev. lia.
    + rewrite RegisterOrGet_other by assumption. by rewrite El.
Qed.

Lemma exec_call_unbound c r r' name kind :
  wf r → exec_call c r = Ok r' → ¬ binds name kind c →
  get_attr_of name kind r = None → get_attr_of name kind r' = None.
Proof.
  intros Hwf. destruct c as [n|n k v]; simpl binds.
  - intros [= <-] _. by apply RegisterOrGet_unbound.
  - intros H%exec_CSetAttr_Ok Hnb Hg.
    apply (RegisterOrGet_unbound name n kind r Hwf) in Hg.
    unfold get_attr_of in *.
    rewrite (set_attr_lookup _ _ _ _ _ _ name H).
    destruct (Registry.lookup name (RegisterOrGet n r).2) as [op|] eqn:El;
      simpl in *; [|reflexivity].
    rewrite (set_attr_get_other _ _ _ _ _ _ op kind H); [exact Hg|].
    intros [= Hi ->]. apply Hnb. split; [|reflexivity].
    pose proof (RegisterOrGet_wf n r Hwf) as Hwf'.
    apply (wf_inj _ Hwf' n name _ _ (RegisterOrGet_lookup n r) El). by symmetry.
Qed.

Lemma exec_calls_unbound cs : ∀ r r' name kind,
  wf r → exec_calls cs r = Ok r' → Forall (λ c, ¬ binds name kind c) cs →
  get_attr_of name kind r = None → get_attr_of name kind r' = None.
Proof.
  induction cs as [|c cs IH]; simpl; intros r r' name kind Hwf.
  - by intros [= <-].
  - destruct (exec_call c r) as [r1|] eqn:E; simpl; [|discriminate].
    intros Hr [Hc Hcs]%Forall_cons Hg.
    apply (IH r1 r' name kind); [by eapply exec_call_wf|done|done|].
    by eapply exec_call_unbound.
Qed.

End registration_calls.

(** ** The registration statements of [comm.cc] *)

Section catalog.
Implicit Types (r : OpRegistry) (b : TLBuiltin).

(** A statement of [comm.cc] is three [set_attr] calls on one entry. *)
Lemma register_builtin_calls b r :
  register_builtin b r = exec_calls (builtin_calls b) r.
Proof.
  unfold register_builtin, TIR_DEFINE_TL_BUILTIN, set_num_inputs, builtin_calls.
  simpl exec_calls. unfold exec_call.
  destruct (RegisterOrGet (registry_name b) r) as [e r0] eqn:E0.
  assert (Registry.lookup (registry_name b) r0 = Some e) as Hl0.
  { pose proof (RegisterOrGet_lookup (registry_name b) r) as H.
    by rewrite E0 in H. }
  destruct (set_attr "TScriptPrinterName" _ e r0) as [[e1 r1]|] eqn:E1;
    simpl; [|reflexivity].
  pose proof (set_attr_lookup _ _ _ _ _ _ (registry_name b) E1) as Hl1.
  apply set_attr_Ok in E1 as (-> & _). rewrite Hl0 in Hl1.
  rewrite (RegisterOrGet_known _ _ _ Hl1).
  destruct (set_attr num_inputs_kind _ e r1) as [[e2 r2]|] eqn:E2;
    simpl; [|reflexivity].
  pose proof (set_attr_lookup _ _ _ _ _ _ (registry_name b) E2) as Hl2.
  apply set_attr_Ok in E2 as (-> & _). rewrite Hl1 in Hl2.
  rewrite (RegisterOrGet_known _ _ _ Hl2).
  destruct (set_attr "TCallEffectKind" _ e r2) as [[e3 r3]|]; reflexivity.
Qed.

Lemma builtin_calls_name b c : c ∈ builtin_calls b → call_name c = registry_name b.
Proof.
  unfold builtin_calls. rewrite !elem_of_cons, elem_of_nil.
  intros [->|[->|[->|[]]]]; reflexivity.
Qed.

(** Calls about one name leave the entries of every other name alone. *)
Lemma exec_calls_frame cs : ∀ r r' n name,
  wf r → exec_calls cs r = Ok r' →
  Forall (λ c, call_name c = n) cs → name ≠ n →
  Registry.lookup name r' = Registry.lookup name r
  ∧ ∀ op kind, Registry.lookup name r = Some op →
      get_attr op kind r' = get_attr op kind r.
Proof.
  induction cs as [|c cs IH]; simpl; intros r r' n name Hwf.
  - by intros [= <-].
  - destruct (exec_call c r) as [r1|] eqn:E; simpl; [|discriminate].
    intros Hr [Hc Hcs]%Forall_cons Hne.
    destruct (IH r1 r' n name) as [Hl Ha]; [by eapply exec_call_wf|done..|].
    assert (Registry.lookup name r1 = Registry.lookup name r) as Hl1.
    { eapply exec_call_other; [exact E|congruence]. }
    split; [congruence|].
    intros op kind Hop. rewrite Ha by congruence.
    eapply exec_call_get_attr; [done|exact E|exact Hop|].
    destruct c; simpl in *; [tauto|]. intros [-> _]. by apply Hne.
Qed.

Lemma bind_Ok {A B : Type} (a : A) (k : A → result B) : (Ok a ≫= k) = k a.
Proof. reflexivity. Qed.

Lemma exec_calls_app cs1 cs2 : ∀ r,
  exec_calls (cs1 ++ cs2) r = (r1 ← exec_calls cs1 r; exec_calls cs2 r1).
Proof.
  induction cs1 as [|c cs1 IH]; simpl; intros r; [reflexivity|].
  destruct (exec_call c r); simpl; [apply IH|reflexivity].
Qed.

(** The translation unit's statements, as one list of calls. *)
Lemma static_init_calls r : static_init r = exec_calls static_calls r.
Proof.
  unfold static_init, static_calls.
  repeat (rewrite register_builtin_calls; rewrite ?exec_calls_app;
          match goal with
          | |- context [exec_calls (builtin_calls ?b) ?r0] =>
              destruct (exec_calls (builtin_calls b) r0);
              [rewrite !bind_Ok; cbv beta|reflexivity]
          end).
  apply register_builtin_calls.
Qed.

Lemma loaded_reachable : exec_calls static_calls Registry.empty = Ok loaded_registry.
Proof. rewrite <- static_init_calls. apply static_init_loaded. Qed.

Lemma loaded_wf : wf loaded_registry.
Proof. exact (reachable_wf _ _ loaded_reachable). Qed.

End catalog.

(** ** What the loaded registry holds *)

Lemma loaded_printer_name b :
  get_attr (builtin_op b) "TScriptPrinterName" loaded_registry
  = Some (StringObj (OpName b)).
Proof. destruct b; vm_compute; reflexivity. Qed.

Lemma loaded_effect_kind b :
  get_attr (builtin_op b) "TCallEffectKind" loaded_registry
  = Some (Integer kOpaque).
Proof. destruct b; vm_compute; reflexivity. Qed.

Lemma loaded_num_inputs b :
  get_attr (builtin_op b) num_inputs_kind loaded_registry
  = Some (IntImm (num_inputs b)).
Proof. destruct b; vm_compute; reflexivity. Qed.

Lemma loaded_bare_name b : Registry.lookup (OpName b) loaded_registry = None.
Proof. destruct b; vm_compute; reflexivity. Qed.

Lemma builtin_op_inj b1 b2 : op_index (builtin_op b1) = op_index (builtin_op b2) → b1 = b2.
Proof. destruct b1, b2; simpl; intros H; first [reflexivity | discriminate H]. Qed.

Lemma registry_name_inj b1 b2 : registry_name b1 = registry_name b2 → b1 = b2.
Proof. destruct b1, b2; intros H; first [reflexivity | discriminate H]. Qed.

(** From here on the loaded registry is used through the facts above. *)
#[local] Opaque loaded_registry.

(** ** Accessors and events *)

Section process.
Implicit Types (p : Process) (b : TLBuiltin) (ev : Event).

Lemma consistent_loaded : consistent loaded_process.
Proof.
  split; simpl.
  - apply loaded_lookup.
  - reflexivity.
  - intros b op. unfold no_cache. discriminate.
Qed.

(** An accessor only reads the registry: it answers from its cache, or
    looks the name up and fills the cache. *)
Lemma accessor_registry b p op p' :
  accessor b p = Ok (op, p') → registry p' = registry p.
Proof.
  unfold accessor. destruct (cache p b); [by intros [= _ <-]|].
  destruct (Get (registry_name b) (registry p)); simpl; [|discriminate].
  by intros [= _ <-].
Qed.

Lemma accessor_consistent b p :
  consistent p →
  ∃ p', accessor b p = Ok (builtin_op b, p') ∧ consistent p'
        ∧ registry p' = registry p
        ∧ cache p' b = Some (builtin_op b)
        ∧ ∀ b', b' ≠ b → cache p' b' = cache p b'.
Proof.
  intros [Hl Ha Hc]. unfold accessor.
  destruct (cache p b) as [op|] eqn:Ec.
  - apply Hc in Ec as Hop. subst op. exists p.
    split; [reflexivity|]. split; [by split|]. split; [reflexivity|].
    split; [exact Ec|reflexivity].
  - unfold Get. rewrite Hl. rewrite bind_Ok. eexists. split; [reflexivity|].
    split; [split; cbn [registry cache]|cbn [registry cache]].
    + exact Hl.
    + exact Ha.
    + intros b' op. unfold set_cache. case_decide; [|by apply Hc].
      intros [= <-]. by subst.
    + split; [reflexivity|]. unfold set_cache. split.
      * by rewrite decide_True.
      * intros b' Hne. by rewrite decide_False.
Qed.

Lemma step_consistent ev p :
  consistent p →
  ∃ op p', step ev p = Ok (op, p') ∧ consistent p'
    ∧ Registry.lookup (requested ev) (registry p') = Some op
    ∧ ∀ name o, Registry.lookup name (registry p) = Some o →
                Registry.lookup name (registry p') = Some o.
Proof.
  intros Hp. destruct ev as [b|name]; simpl.
  - destruct (accessor_consistent b p Hp) as (p' & -> & Hp' & Hr & _).
    exists (builtin_op b), p'.
    split; [reflexivity|]. split; [exact Hp'|]. split.
    + apply Hp'.
    + intros n o. by rewrite Hr.
  - destruct (RegisterOrGet name (registry p)) as [op r] eqn:E.
    exists op, {| registry := r; cache := cache p |}.
    assert (r = (RegisterOrGet name (registry p)).2) as -> by by rewrite E.
    split; [reflexivity|]. split; [split; cbn [registry cache]|cbn [registry]; split].
    + intros b. apply RegisterOrGet_mono, Hp.
    + rewrite RegisterOrGet_attrs. apply Hp.
    + apply Hp.
    + rewrite RegisterOrGet_lookup. by rewrite E.
    + intros n o. apply RegisterOrGet_mono.
Qed.

Lemma run_consistent evs : ∀ p,
  consistent p →
  ∃ log p', run evs p = Ok (log, p') ∧ consistent p'
    ∧ log.*1 = requested <$> evs
    ∧ (∀ name o, Registry.lookup name (registry p) = Some o →
                 Registry.lookup name (registry p') = Some o)
    ∧ (∀ name o, (name, o) ∈ log →
                 Registry.lookup name (registry p') = Some o).
Proof.
  induction evs as [|ev evs IH]; intros p Hp.
  - exists [], p. split; [reflexivity|]. split; [exact Hp|].
    split; [reflexivity|]. split; [by auto|]. intros n o []%elem_of_nil.
  - destruct (step_consistent ev p Hp) as (op & p1 & Hs & Hp1 & Hop & Hm1).
    destruct (IH p1 Hp1) as (log & p' & Hr & Hp' & Hlog & Hm & Hin).
    exists ((requested ev, op) :: log), p'. simpl. rewrite Hs. simpl.
    rewrite Hr. simpl. split; [reflexivity|]. split; [exact Hp'|].
    split; [by f_equal|]. split; [by auto|].
    intros n o [[= -> ->]|H]%elem_of_cons; [by apply Hm|by apply Hin].
Qed.

(** Accessor calls alone never touch the registry. *)
Lemma run_accessors_registry bs : ∀ p log p',
  run (CallAccessor <$> bs) p = Ok (log, p') → registry p' = registry p.
Proof.
  induction bs as [|b bs IH]; intros p log p'.
  - by intros [= _ <-].
  - rewrite fmap_cons. cbn [run step].
    destruct (accessor b p) as [[op p1]|] eqn:Ea; [|discriminate].
    rewrite bind_Ok.
    destruct (run (CallAccessor <$> bs) p1) as [[log1 p2]|] eqn:Er;
      [|discriminate].
    rewrite bind_Ok. intros [= _ <-].
    rewrite (IH _ _ _ Er). by eapply accessor_registry.
Qed.

(** A cache is filled by a call of its own accessor, and by nothing else. *)
Lemma run_cache evs : ∀ p log p' b,
  consistent p → run evs p = Ok (log, p') →
  (is_Some (cache p' b) ↔ is_Some (cache p b) ∨ CallAccessor b ∈ evs).
Proof.
  induction evs as [|ev evs IH]; simpl; intros p log p' b Hp.
  - intros [= _ <-]. rewrite elem_of_nil. tauto.
  - destruct (step_consistent ev p Hp) as (op & p1 & Hs & Hp1 & _).
    rewrite Hs. simpl.
    destruct (run evs p1) as [[log1 p2]|] eqn:Er; simpl; [|discriminate].
    intros [= _ <-]. rewrite (IH _ _ _ b Hp1 Er), elem_of_cons.
    assert (is_Some (cache p1 b) ↔ is_Some (cache p b) ∨ CallAccessor b = ev) as ->.
    { destruct ev as [b0|name]; simpl in Hs.
      - destruct (accessor_consistent b0 p Hp) as (p1' & Ha & _ & _ & Hc & Hc').
        rewrite Ha in Hs. injection Hs as _ <-.
        destruct (decide (b = b0)) as [->|Hne].
        + rewrite Hc. split; [by right|by eauto].
        + rewrite (Hc' b Hne). split; [by left|].
          intros [H|[= H]]; [done|by destruct Hne].
      - destruct (RegisterOrGet name (registry p)). injection Hs as _ <-.
        simpl. split; [by left|]. by intros [H|[=]]. }
    tauto.
Qed.

End process.

Section after_loading.
Implicit Types (p : Process) (b : TLBuiltin) (evs : list Event).

Lemma loaded_run evs :
  ∃ log p, run evs loaded_process = Ok (log, p) ∧ consistent p
    ∧ log.*1 = requested <$> evs
    ∧ ∀ name o, (name, o) ∈ log → Registry.lookup name (registry p) = Some o.
Proof.
  destruct (run_consistent evs loaded_process consistent_loaded)
    as (log & p & Hr & Hp & Hlog & _ & Hin).
  by exists log, p.
Qed.

Lemma consistent_get_attr p op kind :
  consistent p → get_attr op kind (registry p) = get_attr op kind loaded_registry.
Proof. intros Hp. unfold get_attr. by rewrite (cons_attrs _ Hp). Qed.

Lemma consistent_Get p b :
  consistent p → Get (registry_name b) (registry p) = Ok (builtin_op b).
Proof. intros Hp. unfold Get. by rewrite (cons_lookup _ Hp). Qed.

Lemma loaded_arity b : get_arity (builtin_op b) loaded_registry = Some (documented_arity b).
Proof. unfold get_arity. rewrite loaded_num_inputs. by destruct b. Qed.

End after_loading.

(** ** The claims *)

(** C1. For each of the eight operators, in whatever state the process is
    once the module is loaded, the accessor returns an identity whose
    effect-classification attribute is "opaque" and whose display-name
    attribute is the bare operator name, that is, the registry name
    without its "tl." prefix. *)
Theorem C1_attribute_round_trip (evs : list Event) (b : TLBuiltin) :
  ∃ p0 log p id p',
    module_loaded = Ok p0 ∧ run evs p0 = Ok (log, p) ∧
    accessor b p = Ok (id, p') ∧
    get_attr id "TCallEffectKind" (registry p') = Some (Integer kOpaque) ∧
    get_attr id "TScriptPrinterName" (registry p') = Some (StringObj (OpName b)) ∧
    op_name id = "tl." ++ OpName b.
Proof.
  destruct (loaded_run evs) as (log & p & Hr & Hp & _).
  destruct (accessor_consistent b p Hp) as (p' & Ha & Hp' & _).
  exists loaded_process, log, p, (builtin_op b), p'.
  split; [apply module_loaded_eq|]. split; [exact Hr|]. split; [exact Ha|].
  rewrite !(consistent_get_attr p' _ _ Hp').
  split; [apply loaded_effect_kind|]. split; [apply loaded_printer_name|].
  reflexivity.
Qed.

(** C2. The arity bound to each operator is fixed 0 for comm_fence and
    comm_current_core, fixed 1 for CoreId, and the variable-arity sentinel
    (written -1, accepting every count) for comm_put, comm_broadcast,
    comm_allgather, comm_reduce and comm_barrier. *)
Theorem C2_arity_fidelity (evs : list Event) (b : TLBuiltin) :
  ∃ p0 log p id p',
    module_loaded = Ok p0 ∧ run evs p0 = Ok (log, p) ∧
    accessor b p = Ok (id, p') ∧
    get_attr id num_inputs_kind (registry p')
    = Some (IntImm match b with
                   | comm_fence | comm_current_core => 0
                   | CoreId => 1
                   | _ => -1
                   end) ∧
    get_arity id (registry p') = Some (documented_arity b) ∧
    ∀ count, accepts (documented_arity b) count
             = match b with
               | comm_fence | comm_current_core => bool_decide (count = 0)
               | CoreId => bool_decide (count = 1)
               | _ => true
               end.
Proof.
  destruct (loaded_run evs) as (log & p & Hr & Hp & _).
  destruct (accessor_consistent b p Hp) as (p' & Ha & Hp' & _).
  exists loaded_process, log, p, (builtin_op b), p'.
  split; [apply module_loaded_eq|]. split; [exact Hr|]. split; [exact Ha|].
  unfold get_arity. rewrite !(consistent_get_attr p' _ _ Hp').
  split; [rewrite loaded_num_inputs; by destruct b|].
  split; [apply loaded_arity|].
  intros count. destruct b; simpl; try reflexivity;
    destruct count as [|[|count]]; reflexivity.
Qed.

(** C3. Once the module is loaded, however often and in whatever order a
    name is registered again and accessors are called, every request
    succeeds, any two requests for the same name yield the same identity,
    and for each of the eight operators that identity is the one its
    registration statement created. *)
Theorem C3_same_identity (evs : list Event) :
  ∃ p0 log p,
    module_loaded = Ok p0 ∧ run evs p0 = Ok (log, p) ∧
    log.*1 = requested <$> evs ∧
    (∀ name o1 o2, (name, o1) ∈ log → (name, o2) ∈ log → o1 = o2) ∧
    (∀ b o, (registry_name b, o) ∈ log → o = builtin_op b).
Proof.
  destruct (loaded_run evs) as (log & p & Hr & Hp & Hlog & Hin).
  exists loaded_process, log, p.
  split; [apply module_loaded_eq|]. split; [exact Hr|]. split; [exact Hlog|].
  split.
  - intros name o1 o2 H1%Hin H2%Hin. congruence.
  - intros b o Hb%Hin. rewrite (cons_lookup _ Hp) in Hb. congruence.
Qed.

(** C4. For two distinct operators among the eight, the identities their
    accessors return are distinct (they differ in name and in slot). *)
Theorem C4_distinct_identities (evs : list Event) (b1 b2 : TLBuiltin) :
  b1 ≠ b2 →
  ∃ p0 log p id1 p1 id2 p2,
    module_loaded = Ok p0 ∧ run evs p0 = Ok (log, p) ∧
    accessor b1 p = Ok (id1, p1) ∧ accessor b2 p1 = Ok (id2, p2) ∧
    id1 ≠ id2 ∧ op_name id1 ≠ op_name id2 ∧ op_index id1 ≠ op_index id2.
Proof.
  intros Hne.
  destruct (loaded_run evs) as (log & p & Hr & Hp & _).
  destruct (accessor_consistent b1 p Hp) as (p1 & Ha1 & Hp1 & _).
  destruct (accessor_consistent b2 p1 Hp1) as (p2 & Ha2 & _).
  exists loaded_process, log, p, (builtin_op b1), p1, (builtin_op b2), p2.
  split; [apply module_loaded_eq|]. split; [exact Hr|].
  split; [exact Ha1|]. split; [exact Ha2|].
  assert (op_index (builtin_op b1) ≠ op_index (builtin_op b2)) as Hi.
  { intros H%builtin_op_inj. by apply Hne. }
  split; [congruence|]. split; [|exact Hi].
  intros H%registry_name_inj. by apply Hne.
Qed.

(** C4 at [comm_put] and [comm_fence], after some other requests. *)
Lemma C4_distinct_identities_witness :
  comm_put ≠ comm_fence ∧
  ∃ p0 log p id1 p1 id2 p2,
    module_loaded = Ok p0 ∧
    run [CallAccessor comm_barrier; CallRegisterOrGet "tl.comm_put"] p0 = Ok (log, p) ∧
    accessor comm_put p = Ok (id1, p1) ∧ accessor comm_fence p1 = Ok (id2, p2) ∧
    id1 ≠ id2 ∧ op_name id1 ≠ op_name id2 ∧ op_index id1 ≠ op_index id2.
Proof.
  split; [discriminate|].
  apply (C4_distinct_identities
           [CallAccessor comm_barrier; CallRegisterOrGet "tl.comm_put"]
           comm_put comm_fence).
  discriminate.
Defined.

(** The accessor of a process whose registration statements never ran
    finds nothing and registers nothing. *)
Lemma accessor_unloaded b :
  accessor b unloaded_process = Err (NotFound (registry_name b)).
Proof.
  unfold accessor, unloaded_process, no_cache, Get, Registry.lookup. simpl.
  by rewrite lookup_empty.
Qed.

(** C5, as stated, fails: when the module is loaded and no accessor has
    been called yet (every cache is empty), "tl.comm_put" is already in the
    registry; and an accessor does not register: on a registry without the
    name it takes the not-found branch. *)
Lemma C5_registered_before_first_call :
  (∃ p0, module_loaded = Ok p0 ∧ (∀ b, cache p0 b = None) ∧
         Registry.lookup "tl.comm_put" (registry p0)
         = Some {| op_name := "tl.comm_put"; op_index := 0 |}) ∧
  accessor comm_put unloaded_process = Err (NotFound "tl.comm_put") ∧
  ¬ registers_lazily.
Proof.
  split; [|split].
  - exists loaded_process. split; [apply module_loaded_eq|].
    split; [reflexivity|]. apply (loaded_lookup comm_put).
  - apply (accessor_unloaded comm_put).
  - intros H.
    destruct (H [] loaded_process [] loaded_process comm_put) as [b' Hb'].
    + apply module_loaded_eq.
    + reflexivity.
    + simpl. rewrite loaded_lookup. by eexists.
    + by apply elem_of_nil in Hb'.
Qed.

(** C5, amended. Each operator is registered by its namespace-scope
    statement, so it is in the registry when the module is loaded and
    before any accessor is called.  An accessor never registers: its first
    call looks the prefixed name up and fills its cache (a cache is filled
    exactly when its accessor has been called), it leaves the registry as
    it is, and later calls answer from the cache.  Without the registration
    statements the accessor's lookup fails. *)
Theorem C5_registered_at_load_cached_at_first_use (evs : list Event) (b : TLBuiltin) :
  ∃ p0 log p p1,
    module_loaded = Ok p0 ∧
    (∀ b', cache p0 b' = None) ∧
    Registry.lookup (registry_name b) (registry p0) = Some (builtin_op b) ∧
    run evs p0 = Ok (log, p) ∧
    (is_Some (cache p b) ↔ CallAccessor b ∈ evs) ∧
    accessor b p = Ok (builtin_op b, p1) ∧
    registry p1 = registry p ∧
    cache p1 b = Some (builtin_op b) ∧
    accessor b p1 = Ok (builtin_op b, p1) ∧
    accessor b unloaded_process = Err (NotFound (registry_name b)).
Proof.
  destruct (loaded_run evs) as (log & p & Hr & Hp & _).
  destruct (accessor_consistent b p Hp) as (p1 & Ha & Hp1 & Hreg & Hc & _).
  exists loaded_process, log, p, p1.
  split; [apply module_loaded_eq|]. split; [reflexivity|].
  split; [apply loaded_lookup|]. split; [exact Hr|].
  split.
  { rewrite (run_cache evs loaded_process log p b consistent_loaded Hr).
    simpl. unfold no_cache. split; [|by right].
    intros [[? [=]]|H]; exact H. }
  split; [exact Ha|]. split; [exact Hreg|]. split; [exact Hc|].
  split; [|apply accessor_unloaded].
  unfold accessor. by rewrite Hc.
Qed.

(** Binding a kind that already holds another value is refused. *)
Lemma exec_CSetAttr_conflict name kind v old op r :
  Registry.lookup name r = Some op → get_attr op kind r = Some old → old ≠ v →
  exec_call (CSetAttr name kind v) r = Err (ConflictingRegistration (op_name op) kind).
Proof.
  intros Hl Hg Hne. simpl. rewrite (RegisterOrGet_known _ _ _ Hl).
  by rewrite (set_attr_conflict kind v old op r Hg Hne).
Qed.

(** Running a statement of [comm.cc] again changes nothing. *)
Lemma register_builtin_again p b :
  consistent p → register_builtin b (registry p) = Ok (registry p).
Proof.
  intros Hp. unfold register_builtin, TIR_DEFINE_TL_BUILTIN, set_num_inputs.
  rewrite (RegisterOrGet_known _ _ _ (cons_lookup _ Hp b)).
  rewrite set_attr_rebind, bind_Ok
    by (rewrite (consistent_get_attr _ _ _ Hp); apply loaded_printer_name).
  rewrite set_attr_rebind, bind_Ok
    by (rewrite (consistent_get_attr _ _ _ Hp); apply loaded_num_inputs).
  rewrite set_attr_rebind, bind_Ok
    by (rewrite (consistent_get_attr _ _ _ Hp); apply loaded_effect_kind).
  reflexivity.
Qed.

(** C6. Registering one of the eight names again with an effect
    classification other than the bound one fails with the
    conflicting-registration error, in every state of the loaded process;
    so does re-binding any other attribute of the operator to a different
    value.  Running the operator's own statement again is not a conflict. *)
Theorem C6_conflicting_registration (evs : list Event) (b : TLBuiltin)
    (k : CallEffectKind) :
  k ≠ kOpaque →
  ∃ p0 log p,
    module_loaded = Ok p0 ∧ run evs p0 = Ok (log, p) ∧
    exec_call (CSetAttr (registry_name b) "TCallEffectKind" (Integer k)) (registry p)
    = Err (ConflictingRegistration (registry_name b) "TCallEffectKind") ∧
    (∀ kind old v, get_attr (builtin_op b) kind (registry p) = Some old → old ≠ v →
       exec_call (CSetAttr (registry_name b) kind v) (registry p)
       = Err (ConflictingRegistration (registry_name b) kind)) ∧
    register_builtin b (registry p) = Ok (registry p).
Proof.
  intros Hk.
  destruct (loaded_run evs) as (log & p & Hr & Hp & _).
  exists loaded_process, log, p.
  split; [apply module_loaded_eq|]. split; [exact Hr|].
  pose proof (cons_lookup _ Hp b) as Hl.
  split; [|split].
  - apply (exec_CSetAttr_conflict _ _ _ (Integer kOpaque) (builtin_op b)); [exact Hl| |].
    + rewrite (consistent_get_attr _ _ _ Hp). apply loaded_effect_kind.
    + congruence.
  - intros kind old v Hg Hne.
    by apply (exec_CSetAttr_conflict _ _ _ old (builtin_op b)).
  - by apply register_builtin_again.
Qed.

(** C6 at [comm_put] re-registered as pure, after its accessor ran. *)
Lemma C6_conflicting_registration_witness :
  kPure ≠ kOpaque ∧
  ∃ p0 log p,
    module_loaded = Ok p0 ∧ run [CallAccessor comm_put] p0 = Ok (log, p) ∧
    exec_call (CSetAttr (registry_name comm_put) "TCallEffectKind" (Integer kPure))
              (registry p)
    = Err (ConflictingRegistration (registry_name comm_put) "TCallEffectKind") ∧
    (∀ kind old v, get_attr (builtin_op comm_put) kind (registry p) = Some old → old ≠ v →
       exec_call (CSetAttr (registry_name comm_put) kind v) (registry p)
       = Err (ConflictingRegistration (registry_name comm_put) kind)) ∧
    register_builtin comm_put (registry p) = Ok (registry p).
Proof.
  split; [discriminate|].
  apply (C6_conflicting_registration [CallAccessor comm_put] comm_put kPure).
  discriminate.
Defined.

(** A kind bound to a falsy value is reported as bound: the fence's
    argument count is [Some 0], not "absent". *)
Lemma falsy_value_is_present :
  get_attr (builtin_op comm_fence) num_inputs_kind loaded_registry = Some (IntImm 0).
Proof. apply (loaded_num_inputs comm_fence). Qed.

(** C7. In every registry that registration calls can build, a kind that no
    call ever bound to a name is reported as absent for that name's
    identity: the answer is [None], never a value. *)
Theorem C7_absent_attribute (cs : list RegCall) (r : OpRegistry) (name kind : string) :
  exec_calls cs Registry.empty = Ok r →
  Forall (λ c, ¬ binds name kind c) cs →
  get_attr_of name kind r = None ∧
  ∀ op, Registry.lookup name r = Some op → get_attr op kind r = None.
Proof.
  intros Hr Hcs.
  assert (get_attr_of name kind r = None) as Hg.
  { apply (exec_calls_unbound cs Registry.empty r name kind wf_empty Hr Hcs).
    unfold get_attr_of, Registry.lookup. simpl. by rewrite lookup_empty. }
  split; [exact Hg|].
  intros op Hop. unfold get_attr_of in Hg. by rewrite Hop in Hg.
Qed.

(** C7 at the loaded registry: [comm_put] was never given a
    "TVectorizable" attribute. *)
Lemma C7_absent_attribute_witness :
  exec_calls static_calls Registry.empty = Ok loaded_registry ∧
  Forall (λ c, ¬ binds "tl.comm_put" "TVectorizable" c) static_calls ∧
  get_attr_of "tl.comm_put" "TVectorizable" loaded_registry = None ∧
  ∀ op, Registry.lookup "tl.comm_put" loaded_registry = Some op →
        get_attr op "TVectorizable" loaded_registry = None.
Proof.
  assert (Forall (λ c, ¬ binds "tl.comm_put" "TVectorizable" c) static_calls) as H.
  { repeat constructor; intros [_ Hk]; discriminate Hk. }
  split; [exact loaded_reachable|]. split; [exact H|].
  exact (C7_absent_attribute static_calls loaded_registry
           "tl.comm_put" "TVectorizable" loaded_reachable H).
Defined.

(** C8, as stated, fails: a call of an accessor does not always succeed.
    In a process whose registration statements have not run, and in one
    where only the statement of [comm_put] has run so far, an accessor
    whose name is not registered takes the not-found branch. *)
Lemma C8_accessor_before_registration :
  accessor comm_put unloaded_process = Err (NotFound "tl.comm_put") ∧
  accessor comm_fence {| registry := registry_after [comm_put]; cache := no_cache |}
  = Err (NotFound "tl.comm_fence") ∧
  ¬ (∀ (b : TLBuiltin) (p : Process), ∃ id p', accessor b p = Ok (id, p')).
Proof.
  split; [apply (accessor_unloaded comm_put)|]. split.
  - vm_compute. reflexivity.
  - intros H. destruct (H comm_put unloaded_process) as (id & p' & Hok).
    rewrite accessor_unloaded in Hok. discriminate Hok.
Qed.

(** C8, amended. Once the registration statements of the module have run,
    every call of every accessor succeeds, in whatever state the process
    is by then: the lookup of the prefixed name finds the identity, the
    accessor returns it, and the identity carries its name and all three
    attributes.  The accessor does not enforce that order itself: on any
    process it fails exactly when its cache is empty and its prefixed name
    is not in the registry, and the failure is the not-found error. *)
Theorem C8_accessor_succeeds_once_registered (evs : list Event) (b : TLBuiltin) :
  (∃ p0 log p id p',
     module_loaded = Ok p0 ∧ run evs p0 = Ok (log, p) ∧
     Get (registry_name b) (registry p) = Ok id ∧
     accessor b p = Ok (id, p') ∧
     op_name id = registry_name b ∧
     is_Some (get_attr id "TScriptPrinterName" (registry p')) ∧
     is_Some (get_attr id num_inputs_kind (registry p')) ∧
     is_Some (get_attr id "TCallEffectKind" (registry p'))) ∧
  (∀ q e, accessor b q = Err e ↔
          cache q b = None ∧
          Registry.lookup (registry_name b) (registry q) = None ∧
          e = NotFound (registry_name b)).
Proof.
  split.
  - destruct (loaded_run evs) as (log & p & Hr & Hp & _).
    destruct (accessor_consistent b p Hp) as (p' & Ha & Hp' & _).
    exists loaded_process, log, p, (builtin_op b), p'.
    split; [apply module_loaded_eq|]. split; [exact Hr|].
    split; [by apply consistent_Get|]. split; [exact Ha|].
    split; [reflexivity|].
    rewrite !(consistent_get_attr p' _ _ Hp').
    rewrite loaded_printer_name, loaded_num_inputs, loaded_effect_kind.
    by repeat split.
  - intros q e. unfold accessor, Get.
    destruct (cache q b) as [o|].
    { split; [discriminate|]. intros [H _]. discriminate H. }
    destruct (Registry.lookup (registry_name b) (registry q)) as [o|].
    { rewrite bind_Ok. split; [discriminate|]. intros (_ & H & _). discriminate H. }
    split.
    + intros [= <-]. by repeat split.
    + intros (_ & _ & ->). reflexivity.
Qed.

Section registered_names.
Implicit Types (r : OpRegistry) (name : string) (c : RegCall).

Lemma RegisterOrGet_registered n name r :
  is_Some (Registry.lookup name (RegisterOrGet n r).2) →
  is_Some (Registry.lookup name r) ∨ name = n.
Proof.
  destruct (decide (name = n)) as [->|Hne]; [by right|].
  rewrite RegisterOrGet_other by assumption. by left.
Qed.

Lemma exec_call_registered c r r' name :
  exec_call c r = Ok r' → is_Some (Registry.lookup name r') →
  is_Some (Registry.lookup name r) ∨ name = call_name c.
Proof.
  destruct c as [n|n kind v]; simpl call_name.
  - intros [= <-]. apply RegisterOrGet_registered.
  - intros H%exec_CSetAttr_Ok.
    rewrite (set_attr_lookup _ _ _ _ _ _ name H).
    apply RegisterOrGet_registered.
Qed.

(** Only the names the calls mention get registered. *)
Lemma exec_calls_registered cs : ∀ r r' name,
  exec_calls cs r = Ok r' → is_Some (Registry.lookup name r') →
  is_Some (Registry.lookup name r) ∨ ∃ c, c ∈ cs ∧ name = call_name c.
Proof.
  induction cs as [|c cs IH]; simpl; intros r r' name.
  - intros [= <-]. by left.
  - destruct (exec_call c r) as [r1|] eqn:E; simpl; [|discriminate].
    intros Hr Hs. destruct (IH _ _ _ Hr Hs) as [H1|(c' & Hc' & ->)].
    + destruct (exec_call_registered _ _ _ _ E H1) as [H | ->]; [by left|].
      right. exists c. split; [by left|reflexivity].
    + right. exists c'. split; [by right|reflexivity].
Qed.

Lemma static_calls_name c : c ∈ static_calls → ∃ b, call_name c = registry_name b.
Proof.
  unfold static_calls. intros H.
  repeat match goal with
         | H : _ ∈ (_ ++ _)%list |- _ => apply elem_of_app in H as [H|H]
         end;
    apply builtin_calls_name in H; by eexists.
Qed.

Lemma loaded_registered name :
  is_Some (Registry.lookup name loaded_registry) → ∃ b, name = registry_name b.
Proof.
  intros H.
  destruct (exec_calls_registered _ _ _ name loaded_reachable H) as [H0|(c & Hc & ->)].
  - unfold Registry.lookup in H0. simpl in H0. rewrite lookup_empty in H0.
    by destruct H0.
  - by apply static_calls_name.
Qed.

End registered_names.

(** C9. Every operator the module registers is keyed by "tl." followed by
    the bare accessor name, and nothing else is registered; the display
    name is the bare name; so looking a bare name up finds no identity and
    [Get] on it takes the not-found branch.  Accessor calls do not change
    this. *)
Theorem C9_prefixed_key (bs : list TLBuiltin) (b : TLBuiltin) :
  ∃ p0 log p,
    module_loaded = Ok p0 ∧ run (CallAccessor <$> bs) p0 = Ok (log, p) ∧
    registry_name b = "tl." ++ OpName b ∧
    Registry.lookup (registry_name b) (registry p) = Some (builtin_op b) ∧
    (∀ name, is_Some (Registry.lookup name (registry p)) →
             ∃ b', name = "tl." ++ OpName b') ∧
    get_attr (builtin_op b) "TScriptPrinterName" (registry p)
    = Some (StringObj (OpName b)) ∧
    Registry.lookup (OpName b) (registry p) = None ∧
    Get (OpName b) (registry p) = Err (NotFound (OpName b)).
Proof.
  destruct (loaded_run (CallAccessor <$> bs)) as (log & p & Hr & Hp & _).
  exists loaded_process, log, p.
  split; [apply module_loaded_eq|]. split; [exact Hr|].
  apply run_accessors_registry in Hr. simpl in Hr. rewrite Hr.
  split; [reflexivity|]. split; [apply loaded_lookup|].
  split; [apply loaded_registered|]. split; [apply loaded_printer_name|].
  split; [apply loaded_bare_name|].
  unfold Get. by rewrite loaded_bare_name.
Qed.

(** C10. In every registry that registration calls can build, running the
    registration statement of one operator leaves every other name as it
    was: the lookup of the name (its presence and its identity) and every
    attribute of its identity are unchanged. *)
Theorem C10_registration_frame (cs : list RegCall) (r r' : OpRegistry)
    (b : TLBuiltin) (name : string) :
  exec_calls cs Registry.empty = Ok r →
  register_builtin b r = Ok r' →
  name ≠ registry_name b →
  Registry.lookup name r' = Registry.lookup name r ∧
  (∀ op kind, Registry.lookup name r = Some op →
              get_attr op kind r' = get_attr op kind r) ∧
  (∀ kind, get_attr_of name kind r' = get_attr_of name kind r).
Proof.
  intros Hr Hb Hne. rewrite register_builtin_calls in Hb.
  destruct (exec_calls_frame (builtin_calls b) r r' (registry_name b) name)
    as [Hl Ha]; [by eapply reachable_wf|exact Hb| |exact Hne|].
  { apply Forall_forall. intros c. apply builtin_calls_name. }
  split; [exact Hl|]. split; [exact Ha|].
  intros kind. unfold get_attr_of. rewrite Hl.
  destruct (Registry.lookup name r) as [op|] eqn:E; simpl; [|reflexivity].
  by apply Ha.
Qed.

(** C10 at the second statement of [comm.cc]: registering
    [comm_broadcast] leaves the entry of "tl.comm_put" alone. *)
Lemma C10_registration_frame_witness :
  exec_calls (builtin_calls comm_put) Registry.empty = Ok (registry_after [comm_put]) ∧
  register_builtin comm_broadcast (registry_after [comm_put])
  = Ok (registry_after [comm_put; comm_broadcast]) ∧
  "tl.comm_put" ≠ registry_name comm_broadcast ∧
  Registry.lookup "tl.comm_put" (registry_after [comm_put; comm_broadcast])
  = Registry.lookup "tl.comm_put" (registry_after [comm_put]) ∧
  (∀ op kind, Registry.lookup "tl.comm_put" (registry_after [comm_put]) = Some op →
     get_attr op kind (registry_after [comm_put; comm_broadcast])
     = get_attr op kind (registry_after [comm_put])) ∧
  (∀ kind, get_attr_of "tl.comm_put" kind (registry_after [comm_put; comm_broadcast])
           = get_attr_of "tl.comm_put" kind (registry_after [comm_put])).
Proof.
  assert (exec_calls (builtin_calls comm_put) Registry.empty
          = Ok (registry_after [comm_put])) as H1
    by (vm_compute; reflexivity).
  assert (register_builtin comm_broadcast (registry_after [comm_put])
          = Ok (registry_after [comm_put; comm_broadcast])) as H2
    by (vm_compute; reflexivity).
  assert ("tl.comm_put" ≠ registry_name comm_broadcast) as H3 by discriminate.
  split; [exact H1|]. split; [exact H2|]. split; [exact H3|].
  exact (C10_registration_frame (builtin_calls comm_put)
           (registry_after [comm_put]) (registry_after [comm_put; comm_broadcast])
           comm_broadcast "tl.comm_put" H1 H2 H3).
Defined.

(** ** One statement on a registry that does not know its name *)

Section fresh_statement.
Implicit Types (r : OpRegistry) (b : TLBuiltin) (kind : string).

Lemma wf_slot_unbound r kind : wf r → attrs r !! (num_entries r, kind) = None.
Proof.
  intros Hwf. destruct (attrs r !! (num_entries r, kind)) as [v|] eqn:E; [|reflexivity].
  apply (wf_attrs _ Hwf) in E. lia.
Qed.

Lemma set_attr_unbound kind v op r :
  attrs r !! (op_index op, kind) = None →
  set_attr kind v op r
  = Ok (op, {| entry_map := entry_map r; num_entries := num_entries r;
               attrs := <[(op_index op, kind) := v]> (attrs r) |}).
Proof. unfold set_attr. by intros ->. Qed.

Lemma register_builtin_fresh b r :
  wf r → Registry.lookup (registry_name b) r = None →
  register_builtin b r
  = Ok {| entry_map := <[registry_name b :=
                           {| op_name := registry_name b; op_index := num_entries r |}]>
                         (entry_map r);
          num_entries := S (num_entries r);
          attrs := <[(num_entries r, "TCallEffectKind") := Integer kOpaque]>
                     (<[(num_entries r, num_inputs_kind) := IntImm (num_inputs b)]>
                        (<[(num_entries r, "TScriptPrinterName") := StringObj (OpName b)]>
                           (attrs r))) |}.
Proof.
  intros Hwf Hl.
  unfold register_builtin, TIR_DEFINE_TL_BUILTIN, set_num_inputs, RegisterOrGet.
  unfold Registry.lookup in Hl. rewrite Hl.
  rewrite set_attr_unbound by apply (wf_slot_unbound r _ Hwf).
  rewrite bind_Ok. cbv beta iota.
  rewrite set_attr_unbound; cbn [op_index attrs].
  2:{ rewrite lookup_insert_ne by (unfold num_inputs_kind; intros [=]).
      apply (wf_slot_unbound r _ Hwf). }
  rewrite bind_Ok. cbv beta iota.
  rewrite set_attr_unbound; cbn [op_index attrs].
  2:{ rewrite !lookup_insert_ne by (unfold num_inputs_kind; intros [=]).
      apply (wf_slot_unbound r _ Hwf). }
  rewrite bind_Ok. cbv beta iota.
  reflexivity.
Qed.

Lemma register_builtin_wf b r r' : wf r → register_builtin b r = Ok r' → wf r'.
Proof. rewrite register_builtin_calls. apply exec_calls_wf. Qed.

(** What the statement leaves behind, read through the registry's
    interface. *)
Lemma register_builtin_fresh_spec b r :
  wf r → Registry.lookup (registry_name b) r = None →
  ∃ r', register_builtin b r = Ok r' ∧ wf r'
    ∧ num_entries r' = S (num_entries r)
    ∧ Registry.lookup (registry_name b) r'
      = Some {| op_name := registry_name b; op_index := num_entries r |}
    ∧ (∀ name, name ≠ registry_name b →
         Registry.lookup name r' = Registry.lookup name r)
    ∧ (∀ kind, attrs r' !! (num_entries r, kind) = builtin_attr b kind)
    ∧ (∀ j kind, j ≠ num_entries r → attrs r' !! (j, kind) = attrs r !! (j, kind)).
Proof.
  intros Hwf Hl. pose proof (register_builtin_fresh b r Hwf Hl) as Hr.
  eexists. split; [exact Hr|].
  split; [by eapply register_builtin_wf|].
  split; [reflexivity|]. unfold Registry.lookup. cbn [entry_map attrs].
  split; [apply lookup_insert_eq|].
  split; [intros name Hne; by apply lookup_insert_ne|].
  split.
  - intros kind. unfold builtin_attr. rewrite !lookup_insert.
    pose proof (wf_slot_unbound r kind Hwf) as Hn.
    repeat case_decide; simplify_eq; try reflexivity; try congruence.
  - intros j kind Hj. rewrite !lookup_insert_ne by congruence. reflexivity.
Qed.

End fresh_statement.

(** ** The statements in any order, on any registry *)

Section any_order.
Implicit Types (r : OpRegistry) (b : TLBuiltin) (bs : list TLBuiltin) (kind : string).

Lemma register_all_fresh bs : ∀ r,
  NoDup bs → wf r →
  (∀ b, b ∈ bs → Registry.lookup (registry_name b) r = None) →
  ∃ r', register_all bs r = Ok r' ∧ wf r'
    ∧ num_entries r' = num_entries r + length bs
    ∧ (∀ i b, bs !! i = Some b →
         Registry.lookup (registry_name b) r'
         = Some {| op_name := registry_name b; op_index := num_entries r + i |})
    ∧ (∀ name, (∀ b, b ∈ bs → name ≠ registry_name b) →
         Registry.lookup name r' = Registry.lookup name r)
    ∧ (∀ i b kind, bs !! i = Some b →
         attrs r' !! (num_entries r + i, kind) = builtin_attr b kind)
    ∧ (∀ j kind, j < num_entries r → attrs r' !! (j, kind) = attrs r !! (j, kind)).
Proof.
  induction bs as [|b bs IH]; intros r Hnd Hwf Hfresh.
  - exists r. split; [reflexivity|]. split; [exact Hwf|].
    split; [simpl; lia|]. split; [intros i b' [=]|].
    split; [reflexivity|]. split; [intros i b' kind [=]|reflexivity].
  - apply NoDup_cons in Hnd as [Hb Hnd].
    destruct (register_builtin_fresh_spec b r Hwf) as
      (r1 & Hr1 & Hwf1 & Hn1 & Hl1 & Hf1 & Ha1 & Hk1);
      [apply Hfresh; by left|].
    destruct (IH r1 Hnd Hwf1) as (r' & Hr' & Hwf' & Hn' & Hl' & Hf' & Ha' & Hk').
    { intros b' Hb'. rewrite Hf1; [apply Hfresh; by right|].
      intros ->%registry_name_inj. by apply Hb. }
    assert (∀ b', b' ∈ bs → registry_name b ≠ registry_name b') as Hdiff.
    { intros b' Hb' ->%registry_name_inj. by apply Hb. }
    exists r'. cbn [register_all]. rewrite Hr1, bind_Ok.
    split; [exact Hr'|]. split; [exact Hwf'|].
    split; [simpl; lia|].
    split; [|split; [|split]].
    + intros [|i] b' Hi; simpl in Hi.
      * injection Hi as <-. rewrite (Hf' _ Hdiff), Hl1. by rewrite Nat.add_0_r.
      * rewrite (Hl' i b' Hi), Hn1. do 2 f_equal. lia.
    + intros name Hname. rewrite Hf'.
      * apply Hf1, Hname. by left.
      * intros b' Hb'. apply Hname. by right.
    + intros [|i] b' kind Hi; simpl in Hi.
      * injection Hi as <-. rewrite Nat.add_0_r.
        rewrite Hk' by lia. apply Ha1.
      * replace (num_entries r + S i) with (num_entries r1 + i) by lia.
        by apply Ha'.
    + intros j kind Hj. rewrite Hk' by lia. apply Hk1. lia.
Qed.

(** The same, by name. *)
Lemma register_all_by_name bs r :
  NoDup bs → wf r →
  (∀ b, b ∈ bs → Registry.lookup (registry_name b) r = None) →
  ∃ r', register_all bs r = Ok r' ∧ wf r'
    ∧ (∀ b, b ∈ bs → is_Some (Registry.lookup (registry_name b) r')
                     ∧ ∀ kind, get_attr_of (registry_name b) kind r' = builtin_attr b kind)
    ∧ (∀ name, (∀ b, b ∈ bs → name ≠ registry_name b) →
         Registry.lookup name r' = Registry.lookup name r
         ∧ ∀ kind, get_attr_of name kind r' = get_attr_of name kind r).
Proof.
  intros Hnd Hwf Hfresh.
  destruct (register_all_fresh bs r Hnd Hwf Hfresh)
    as (r' & Hr' & Hwf' & Hn' & Hl' & Hf' & Ha' & Hk').
  exists r'. split; [exact Hr'|]. split; [exact Hwf'|]. split.
  - intros b [i Hi]%list_elem_of_lookup.
    rewrite (Hl' i b Hi). split; [by eexists|].
    intros kind. unfold get_attr_of. rewrite (Hl' i b Hi). simpl.
    apply (Ha' i b kind Hi).
  - intros name Hname. pose proof (Hf' name Hname) as Hl.
    split; [exact Hl|]. intros kind. unfold get_attr_of. rewrite Hl.
    destruct (Registry.lookup name r) as [op|] eqn:E; [|reflexivity].
    simpl. unfold get_attr. apply Hk'. by apply (wf_index _ Hwf name).
Qed.

Lemma statement_order_NoDup : NoDup statement_order.
Proof.
  unfold statement_order.
  repeat (apply NoDup_cons; split;
          [rewrite ?elem_of_cons, elem_of_nil; intros H;
           repeat destruct H as [H|H]; first [discriminate H | exact H]|]).
  apply NoDup_nil_2.
Qed.

Lemma statement_order_all b : b ∈ statement_order.
Proof.
  unfold statement_order. rewrite !elem_of_cons.
  destruct b; repeat first [left; reflexivity | right].
Qed.

Lemma statement_order_index b : statement_order !! builtin_index b = Some b.
Proof. by destruct b. Qed.

Lemma static_init_register_all r : static_init r = register_all statement_order r.
Proof.
  unfold static_init, statement_order. cbn [register_all].
  repeat match goal with
         | |- context [register_builtin ?b ?r0] =>
             destruct (register_builtin b r0);
             [rewrite !bind_Ok; cbv beta|reflexivity]
         end.
  reflexivity.
Qed.

End any_order.

(** ** Accessors on any process *)

Section any_process.
Implicit Types (p : Process) (b : TLBuiltin) (ev : Event) (op : Op).

Lemma accessor_Ok_inv b p op p' :
  accessor b p = Ok (op, p') →
  registry p' = registry p ∧ cache p' b = Some op
  ∧ (∀ b', b' ≠ b → cache p' b' = cache p b')
  ∧ (cache p b = Some op ∧ p' = p
     ∨ cache p b = None
       ∧ Registry.lookup (registry_name b) (registry p) = Some op).
Proof.
  unfold accessor, Get. destruct (cache p b) as [o|] eqn:Ec.
  - intros [= <- <-]. by repeat split; try left.
  - destruct (Registry.lookup (registry_name b) (registry p)) as [o|] eqn:El;
      [|discriminate].
    rewrite bind_Ok. intros [= <- <-]. cbn [registry cache]. unfold set_cache.
    split; [reflexivity|]. split; [by rewrite decide_True|].
    split; [|by right]. intros b' Hne. by rewrite decide_False.
Qed.

Lemma accessor_Err_inv b p e :
  accessor b p = Err e →
  cache p b = None ∧ Registry.lookup (registry_name b) (registry p) = None
  ∧ e = NotFound (registry_name b).
Proof.
  unfold accessor, Get. destruct (cache p b); [discriminate|].
  destruct (Registry.lookup (registry_name b) (registry p)); [discriminate|].
  by intros [= <-].
Qed.

Lemma accessor_cached b p op : cache p b = Some op → accessor b p = Ok (op, p).
Proof. unfold accessor. by intros ->. Qed.

Lemma step_coherent ev p op p' :
  coherent p → step ev p = Ok (op, p') →
  coherent p'
  ∧ Registry.lookup (requested ev) (registry p') = Some op
  ∧ ∀ name o, Registry.lookup name (registry p) = Some o →
              Registry.lookup name (registry p') = Some o.
Proof.
  intros Hp. destruct ev as [b|name]; cbn [step requested].
  - intros (Hr & Hc & Hc' & Hhow)%accessor_Ok_inv.
    assert (Registry.lookup (registry_name b) (registry p) = Some op) as Hl.
    { destruct Hhow as [[H _]|[_ H]]; [by apply Hp|exact H]. }
    split; [|split].
    + intros b' o. rewrite Hr. destruct (decide (b' = b)) as [->|Hne].
      * rewrite Hc. by intros [= <-].
      * rewrite (Hc' b' Hne). apply Hp.
    + by rewrite Hr.
    + intros name o. by rewrite Hr.
  - destruct (RegisterOrGet name (registry p)) as [o r] eqn:E.
    intros [= <- <-]. cbn [registry cache].
    assert (r = (RegisterOrGet name (registry p)).2) as -> by by rewrite E.
    split; [|split].
    + intros b' o' Hc. by apply RegisterOrGet_mono, Hp.
    + rewrite RegisterOrGet_lookup. by rewrite E.
    + intros n o'. apply RegisterOrGet_mono.
Qed.

Lemma step_cache_mono ev p op p' b o :
  step ev p = Ok (op, p') → cache p b = Some o → cache p' b = Some o.
Proof.
  destruct ev as [b0|name]; cbn [step].
  - intros (_ & Hc & Hc' & Hhow)%accessor_Ok_inv Hb.
    destruct (decide (b = b0)) as [->|Hne]; [|by rewrite Hc'].
    destruct Hhow as [[H _]|[H _]]; congruence.
  - destruct (RegisterOrGet name (registry p)). by intros [= _ <-].
Qed.

Lemma run_cons_inv ev evs p log p' :
  run (ev :: evs) p = Ok (log, p') →
  ∃ op p1 log1, step ev p = Ok (op, p1) ∧ run evs p1 = Ok (log1, p')
                ∧ log = (requested ev, op) :: log1.
Proof.
  cbn [run]. destruct (step ev p) as [[op p1]|] eqn:Es; [|discriminate].
  rewrite bind_Ok. destruct (run evs p1) as [[log1 p2]|] eqn:Er; [|discriminate].
  rewrite bind_Ok. intros [= <- <-]. by exists op, p1, log1.
Qed.

Lemma run_coherent evs : ∀ p log p',
  coherent p → run evs p = Ok (log, p') →
  coherent p'
  ∧ (∀ name o, (name, o) ∈ log → Registry.lookup name (registry p') = Some o)
  ∧ (∀ name o, Registry.lookup name (registry p) = Some o →
               Registry.lookup name (registry p') = Some o).
Proof.
  induction evs as [|ev evs IH]; intros p log p' Hp.
  - intros [= <- <-]. split; [exact Hp|]. split; [|by auto].
    intros name o []%elem_of_nil.
  - intros (op & p1 & log1 & Hs & Hr & ->)%run_cons_inv.
    destruct (step_coherent ev p op p1 Hp Hs) as (Hp1 & Hop & Hm1).
    destruct (IH p1 log1 p' Hp1 Hr) as (Hp' & Hin & Hm).
    split; [exact Hp'|]. split; [|by auto].
    intros name o [[= -> ->]|H]%elem_of_cons; [by apply Hm|by apply Hin].
Qed.

Lemma run_cache_mono evs : ∀ p log p' b o,
  run evs p = Ok (log, p') → cache p b = Some o → cache p' b = Some o.
Proof.
  induction evs as [|ev evs IH]; intros p log p' b o.
  - by intros [= _ <-].
  - intros (op & p1 & log1 & Hs & Hr & ->)%run_cons_inv Hc.
    apply (IH p1 log1 p' b o Hr). by eapply step_cache_mono.
Qed.

Lemma run_accessors_cache bs : ∀ p log p' b,
  run (CallAccessor <$> bs) p = Ok (log, p') →
  (is_Some (cache p' b) ↔ is_Some (cache p b) ∨ b ∈ bs).
Proof.
  induction bs as [|b0 bs IH]; intros p log p' b.
  - intros [= _ <-]. rewrite elem_of_nil. tauto.
  - rewrite fmap_cons.
    intros (op & p1 & log1 & Hs & Hr & ->)%run_cons_inv.
    rewrite (IH p1 log1 p' b Hr), elem_of_cons.
    cbn [step] in Hs. apply accessor_Ok_inv in Hs as (_ & Hc & Hc' & Hhow).
    destruct (decide (b = b0)) as [->|Hne].
    + rewrite Hc. split; [by right; left|by left; eexists].
    + rewrite (Hc' b Hne). split; [tauto|]. intros [H|[H|H]]; tauto.
Qed.

Lemma run_accessors_Ok bs : ∀ p,
  (∃ log p', run (CallAccessor <$> bs) p = Ok (log, p'))
  ↔ ∀ b, b ∈ bs →
      is_Some (cache p b)
      ∨ is_Some (Registry.lookup (registry_name b) (registry p)).
Proof.
  induction bs as [|b0 bs IH]; intros p.
  - split; [intros _ b []%elem_of_nil|]. intros _. by exists [], p.
  - rewrite fmap_cons. split.
    + intros (log & p' & (op & p1 & log1 & Hs & Hr & ->)%run_cons_inv).
      cbn [step] in Hs. apply accessor_Ok_inv in Hs as (Hreg & Hc & Hc' & Hhow).
      assert (is_Some (cache p b0)
              ∨ is_Some (Registry.lookup (registry_name b0) (registry p))) as H0.
      { destruct Hhow as [[H _]|[_ H]]; [left|right]; by eexists. }
      intros b [->|Hb]%elem_of_cons; [exact H0|].
      destruct (decide (b = b0)) as [->|Hne]; [exact H0|].
      destruct (proj1 (IH p1) (ex_intro _ log1 (ex_intro _ p' Hr)) b Hb) as [H|H].
      * left. by rewrite <- (Hc' b Hne).
      * right. by rewrite <- Hreg.
    + intros Hall.
      assert (∃ op p1, accessor b0 p = Ok (op, p1)) as (op & p1 & Ha).
      { destruct (accessor b0 p) as [[op p1]|e] eqn:Ea; [by eauto|].
        apply accessor_Err_inv in Ea as (Hc & Hl & _).
        destruct (Hall b0) as [H|H]; [by left| |].
        - rewrite Hc in H. by destruct H.
        - rewrite Hl in H. by destruct H. }
      pose proof Ha as (Hreg & Hc & Hc' & _)%accessor_Ok_inv.
      destruct (proj2 (IH p1)) as (log1 & p' & Hr).
      { intros b Hb. destruct (decide (b = b0)) as [->|Hne].
        - left. rewrite Hc. by eexists.
        - rewrite (Hc' b Hne), Hreg. apply Hall. by right. }
      exists ((registry_name b0, op) :: log1), p'.
      cbn [run step requested]. by rewrite Ha, bind_Ok, Hr, bind_Ok.
Qed.

End any_process.

(** ** Further properties of the statements and the accessors *)

Lemma other_registry_reachable :
  exec_calls [CSetAttr "tir.ret" "TCallEffectKind" (Integer kPure)] Registry.empty
  = Ok other_registry.
Proof. vm_compute. reflexivity. Qed.

Lemma other_registry_fresh b : Registry.lookup (registry_name b) other_registry = None.
Proof. destruct b; vm_compute; reflexivity. Qed.

(** X1. On any registry built by earlier registrations in which the
    operator's prefixed name is not yet registered, a statement of
    [comm.cc] succeeds: it creates the identity in the next free slot, under
    the prefixed name, and binds exactly three attributes to it (the bare
    name as printer name, the argument count, the opaque effect kind);
    every other kind stays absent. *)
Theorem X1_statement_on_any_registry (cs : list RegCall) (r : OpRegistry)
    (b : TLBuiltin) :
  exec_calls cs Registry.empty = Ok r →
  Registry.lookup (registry_name b) r = None →
  ∃ r' id,
    register_builtin b r = Ok r' ∧
    Registry.lookup (registry_name b) r' = Some id ∧
    op_name id = "tl." ++ OpName b ∧ op_index id = num_entries r ∧
    num_entries r' = S (num_entries r) ∧
    get_attr id "TScriptPrinterName" r' = Some (StringObj (OpName b)) ∧
    get_attr id num_inputs_kind r' = Some (IntImm (num_inputs b)) ∧
    get_attr id "TCallEffectKind" r' = Some (Integer kOpaque) ∧
    ∀ kind, kind ≠ "TScriptPrinterName" → kind ≠ num_inputs_kind →
            kind ≠ "TCallEffectKind" → get_attr id kind r' = None.
Proof.
  intros Hr Hl. pose proof (reachable_wf _ _ Hr) as Hwf.
  destruct (register_builtin_fresh_spec b r Hwf Hl)
    as (r' & Hr' & _ & Hn & Hl' & _ & Ha & _).
  exists r', {| op_name := registry_name b; op_index := num_entries r |}.
  split; [exact Hr'|]. split; [exact Hl'|].
  split; [reflexivity|]. split; [reflexivity|]. split; [exact Hn|].
  unfold get_attr. cbn [op_index]. rewrite !Ha.
  split; [reflexivity|]. split; [reflexivity|]. split; [reflexivity|].
  intros kind H1 H2 H3. rewrite Ha. unfold builtin_attr.
  by rewrite !decide_False.
Qed.

(** X1 at [CoreId], on a registry holding another module's operator. *)
Lemma X1_statement_on_any_registry_witness :
  exec_calls [CSetAttr "tir.ret" "TCallEffectKind" (Integer kPure)] Registry.empty
  = Ok other_registry ∧
  Registry.lookup (registry_name CoreId) other_registry = None ∧
  ∃ r' id,
    register_builtin CoreId other_registry = Ok r' ∧
    Registry.lookup (registry_name CoreId) r' = Some id ∧
    op_name id = "tl." ++ OpName CoreId ∧ op_index id = num_entries other_registry ∧
    num_entries r' = S (num_entries other_registry) ∧
    get_attr id "TScriptPrinterName" r' = Some (StringObj (OpName CoreId)) ∧
    get_attr id num_inputs_kind r' = Some (IntImm (num_inputs CoreId)) ∧
    get_attr id "TCallEffectKind" r' = Some (Integer kOpaque) ∧
    ∀ kind, kind ≠ "TScriptPrinterName" → kind ≠ num_inputs_kind →
            kind ≠ "TCallEffectKind" → get_attr id kind r' = None.
Proof.
  split; [exact other_registry_reachable|].
  split; [exact (other_registry_fresh CoreId)|].
  exact (X1_statement_on_any_registry _ other_registry CoreId
           other_registry_reachable (other_registry_fresh CoreId)).
Defined.

(** X2. On any registry built by earlier registrations that holds none of
    the eight prefixed names, the statements of [comm.cc] all succeed: the
    eight operators take the next eight slots in the order of the file, and
    every entry that was there before keeps its identity and all its
    attributes. *)
Theorem X2_static_init_on_any_registry (cs : list RegCall) (r : OpRegistry) :
  exec_calls cs Registry.empty = Ok r →
  (∀ b, Registry.lookup (registry_name b) r = None) →
  ∃ r',
    static_init r = Ok r' ∧
    num_entries r' = num_entries r + 8 ∧
    (∀ b, Registry.lookup (registry_name b) r'
          = Some {| op_name := registry_name b;
                    op_index := num_entries r + builtin_index b |}) ∧
    (∀ name op, Registry.lookup name r = Some op →
       Registry.lookup name r' = Some op ∧
       ∀ kind, get_attr op kind r' = get_attr op kind r) ∧
    (∀ name, (∀ b, name ≠ registry_name b) →
       Registry.lookup name r' = Registry.lookup name r).
Proof.
  intros Hr Hfresh. pose proof (reachable_wf _ _ Hr) as Hwf.
  destruct (register_all_fresh statement_order r statement_order_NoDup Hwf)
    as (r' & Hr' & _ & Hn & Hl & Hf & _ & Hk); [by auto|].
  exists r'. rewrite static_init_register_all.
  split; [exact Hr'|]. split; [exact Hn|].
  split; [intros b; apply Hl, statement_order_index|].
  split.
  - intros name op Hop.
    assert (∀ b, name ≠ registry_name b) as Hne.
    { intros b ->. rewrite Hfresh in Hop. discriminate. }
    split; [rewrite Hf; by auto|].
    intros kind. unfold get_attr. apply Hk. by apply (wf_index _ Hwf name).
  - intros name Hne. apply Hf. by auto.
Qed.

(** X2 on a registry holding another module's operator. *)
Lemma X2_static_init_on_any_registry_witness :
  exec_calls [CSetAttr "tir.ret" "TCallEffectKind" (Integer kPure)] Registry.empty
  = Ok other_registry ∧
  (∀ b, Registry.lookup (registry_name b) other_registry = None) ∧
  ∃ r',
    static_init other_registry = Ok r' ∧
    num_entries r' = num_entries other_registry + 8 ∧
    (∀ b, Registry.lookup (registry_name b) r'
          = Some {| op_name := registry_name b;
                    op_index := num_entries other_registry + builtin_index b |}) ∧
    (∀ name op, Registry.lookup name other_registry = Some op →
       Registry.lookup name r' = Some op ∧
       ∀ kind, get_attr op kind r' = get_attr op kind other_registry) ∧
    (∀ name, (∀ b, name ≠ registry_name b) →
       Registry.lookup name r' = Registry.lookup name other_registry).
Proof.
  split; [exact other_registry_reachable|].
  split; [exact other_registry_fresh|].
  exact (X2_static_init_on_any_registry _ other_registry
           other_registry_reachable other_registry_fresh).
Defined.

(** X3. The order of the eight statements does not matter by name: run in
    any permutation of the file's order, on any registry that holds none of
    the eight names, they succeed and leave the same names registered with
    the same attributes as the file's order does (only the slots differ). *)
Theorem X3_statement_order_is_irrelevant (cs : list RegCall) (r : OpRegistry)
    (bs : list TLBuiltin) :
  exec_calls cs Registry.empty = Ok r →
  (∀ b, Registry.lookup (registry_name b) r = None) →
  bs ≡ₚ statement_order →
  ∃ r1 r2,
    static_init r = Ok r1 ∧ register_all bs r = Ok r2 ∧
    (∀ name, is_Some (Registry.lookup name r2) ↔ is_Some (Registry.lookup name r1)) ∧
    (∀ name kind, get_attr_of name kind r2 = get_attr_of name kind r1).
Proof.
  intros Hr Hfresh Hperm. pose proof (reachable_wf _ _ Hr) as Hwf.
  assert (NoDup bs) as Hnd by (rewrite Hperm; apply statement_order_NoDup).
  assert (∀ b, b ∈ bs) as Hall by (intros b; rewrite Hperm; apply statement_order_all).
  destruct (register_all_by_name statement_order r statement_order_NoDup Hwf)
    as (r1 & Hr1 & _ & Hin1 & Hout1); [by auto|].
  destruct (register_all_by_name bs r Hnd Hwf) as (r2 & Hr2 & _ & Hin2 & Hout2);
    [by auto|].
  exists r1, r2. rewrite static_init_register_all.
  split; [exact Hr1|]. split; [exact Hr2|].
  assert (∀ name, (∃ b, name = registry_name b) ∨ ∀ b, name ≠ registry_name b) as Hdec.
  { intros name.
    destruct (decide (name ∈ registry_name <$> statement_order)) as [Hin|Hnin].
    - left. apply list_elem_of_fmap in Hin as (b & -> & _). by exists b.
    - right. intros b ->. apply Hnin, list_elem_of_fmap.
      exists b. split; [reflexivity|apply statement_order_all]. }
  split; intros name.
  - destruct (Hdec name) as [[b ->]|Hne].
    + destruct (Hin1 b (statement_order_all b)) as [H1 _].
      destruct (Hin2 b (Hall b)) as [H2 _]. tauto.
    + destruct (Hout1 name) as [-> _]; [by auto|].
      destruct (Hout2 name) as [-> _]; [by auto|]. tauto.
  - intros kind. destruct (Hdec name) as [[b ->]|Hne].
    + destruct (Hin1 b (statement_order_all b)) as [_ ->].
      by destruct (Hin2 b (Hall b)) as [_ ->].
    + destruct (Hout1 name) as [_ ->]; [by auto|].
      by destruct (Hout2 name) as [_ ->]; [by auto|].
Qed.

(** X3 with the statements in reverse order. *)
Lemma X3_statement_order_is_irrelevant_witness :
  exec_calls [CSetAttr "tir.ret" "TCallEffectKind" (Integer kPure)] Registry.empty
  = Ok other_registry ∧
  (∀ b, Registry.lookup (registry_name b) other_registry = None) ∧
  reverse statement_order ≡ₚ statement_order ∧
  ∃ r1 r2,
    static_init other_registry = Ok r1 ∧
    register_all (reverse statement_order) other_registry = Ok r2 ∧
    (∀ name, is_Some (Registry.lookup name r2) ↔ is_Some (Registry.lookup name r1)) ∧
    (∀ name kind, get_attr_of name kind r2 = get_attr_of name kind r1).
Proof.
  split; [exact other_registry_reachable|].
  split; [exact other_registry_fresh|].
  split; [exact (reverse_Permutation statement_order)|].
  exact (X3_statement_order_is_irrelevant _ other_registry (reverse statement_order)
           other_registry_reachable other_registry_fresh
           (reverse_Permutation statement_order)).
Defined.

(** X4. After the statements of [comm.cc] have run on any such registry,
    each accessor succeeds at its first call without touching the
    registry, and returns the identity registered under the prefixed name;
    that identity carries the bare name as printer name and the opaque
    effect kind, and its arity accepts the number of arguments of the call
    signature that [comm.h] documents for the accessor. *)
Theorem X4_accessor_after_load_on_any_registry (cs : list RegCall)
    (r : OpRegistry) (b : TLBuiltin) :
  exec_calls cs Registry.empty = Ok r →
  (∀ b', Registry.lookup (registry_name b') r = None) →
  ∃ r' id p',
    static_init r = Ok r' ∧
    accessor b (fresh_process r') = Ok (id, p') ∧
    registry p' = r' ∧
    Registry.lookup (registry_name b) r' = Some id ∧
    op_name id = "tl." ++ OpName b ∧
    get_attr id "TScriptPrinterName" r' = Some (StringObj (OpName b)) ∧
    get_attr id "TCallEffectKind" r' = Some (Integer kOpaque) ∧
    get_arity id r' = Some (arity_of (num_inputs b)) ∧
    accepts (arity_of (num_inputs b)) (documented_argc b) = true.
Proof.
  intros Hr Hfresh. pose proof (reachable_wf _ _ Hr) as Hwf.
  destruct (register_all_fresh statement_order r statement_order_NoDup Hwf)
    as (r' & Hr' & _ & _ & Hl & _ & Ha & _); [by auto|].
  pose proof (Hl _ b (statement_order_index b)) as Hlb.
  assert (∀ kind, attrs r' !! (num_entries r + builtin_index b, kind)
                  = builtin_attr b kind) as Hab.
  { intros kind. apply Ha, statement_order_index. }
  exists r', {| op_name := registry_name b;
                op_index := num_entries r + builtin_index b |}.
  eexists. rewrite static_init_register_all. split; [exact Hr'|].
  split.
  { unfold accessor, fresh_process, no_cache, Get. cbn [cache registry].
    rewrite Hlb, bind_Ok. reflexivity. }
  cbn [registry]. split; [reflexivity|]. split; [exact Hlb|].
  split; [reflexivity|].
  unfold get_arity, get_attr. cbn [op_index]. rewrite !Hab.
  split; [reflexivity|]. split; [reflexivity|]. split; [reflexivity|].
  by destruct b.
Qed.

(** X4 at [comm_reduce], on a registry holding another module's operator. *)
Lemma X4_accessor_after_load_on_any_registry_witness :
  exec_calls [CSetAttr "tir.ret" "TCallEffectKind" (Integer kPure)] Registry.empty
  = Ok other_registry ∧
  (∀ b', Registry.lookup (registry_name b') other_registry = None) ∧
  ∃ r' id p',
    static_init other_registry = Ok r' ∧
    accessor comm_reduce (fresh_process r') = Ok (id, p') ∧
    registry p' = r' ∧
    Registry.lookup (registry_name comm_reduce) r' = Some id ∧
    op_name id = "tl." ++ OpName comm_reduce ∧
    get_attr id "TScriptPrinterName" r' = Some (StringObj (OpName comm_reduce)) ∧
    get_attr id "TCallEffectKind" r' = Some (Integer kOpaque) ∧
    get_arity id r' = Some (arity_of (num_inputs comm_reduce)) ∧
    accepts (arity_of (num_inputs comm_reduce)) (documented_argc comm_reduce) = true.
Proof.
  split; [exact other_registry_reachable|].
  split; [exact other_registry_fresh|].
  exact (X4_accessor_after_load_on_any_registry _ other_registry comm_reduce
           other_registry_reachable other_registry_fresh).
Defined.

(** X5. Whatever the registry holds and in whatever order names are
    requested, through accessors or from the registry itself, a run that
    succeeds keeps the caches in step with the registry: every identity
    handed out is the one the registry holds under the requested name, so
    two requests for one name agree, and no entry present at the start is
    lost or replaced. *)
Theorem X5_requests_agree_on_any_registry (evs : list Event) (p0 : Process)
    (log : list (string * Op)) (p : Process) :
  coherent p0 → run evs p0 = Ok (log, p) →
  coherent p ∧
  (∀ name o, (name, o) ∈ log → Registry.lookup name (registry p) = Some o) ∧
  (∀ name o1 o2, (name, o1) ∈ log → (name, o2) ∈ log → o1 = o2) ∧
  (∀ name o, Registry.lookup name (registry p0) = Some o →
             Registry.lookup name (registry p) = Some o).
Proof.
  intros Hp0 Hr.
  destruct (run_coherent evs p0 log p Hp0 Hr) as (Hp & Hin & Hm).
  split; [exact Hp|]. split; [exact Hin|]. split; [|exact Hm].
  intros name o1 o2 H1%Hin H2%Hin. congruence.
Qed.

(** X5 on an empty registry: the name is registered by hand, then the
    accessor is called. *)
Lemma X5_requests_agree_on_any_registry_witness :
  coherent (fresh_process Registry.empty) ∧
  run [CallRegisterOrGet "tl.CoreId"; CallAccessor CoreId] (fresh_process Registry.empty)
  = Ok ([("tl.CoreId", {| op_name := "tl.CoreId"; op_index := 0 |});
         ("tl.CoreId", {| op_name := "tl.CoreId"; op_index := 0 |})],
        {| registry := (RegisterOrGet "tl.CoreId" Registry.empty).2;
           cache := set_cache CoreId {| op_name := "tl.CoreId"; op_index := 0 |}
                              no_cache |}) ∧
  coherent {| registry := (RegisterOrGet "tl.CoreId" Registry.empty).2;
              cache := set_cache CoreId {| op_name := "tl.CoreId"; op_index := 0 |}
                                 no_cache |} ∧
  (∀ name o,
     (name, o) ∈ [("tl.CoreId", {| op_name := "tl.CoreId"; op_index := 0 |});
                  ("tl.CoreId", {| op_name := "tl.CoreId"; op_index := 0 |})] →
     Registry.lookup name (RegisterOrGet "tl.CoreId" Registry.empty).2 = Some o) ∧
  (∀ name o1 o2,
     (name, o1) ∈ [("tl.CoreId", {| op_name := "tl.CoreId"; op_index := 0 |});
                   ("tl.CoreId", {| op_name := "tl.CoreId"; op_index := 0 |})] →
     (name, o2) ∈ [("tl.CoreId", {| op_name := "tl.CoreId"; op_index := 0 |});
                   ("tl.CoreId", {| op_name := "tl.CoreId"; op_index := 0 |})] →
     o1 = o2) ∧
  (∀ name o, Registry.lookup name Registry.empty = Some o →
             Registry.lookup name (RegisterOrGet "tl.CoreId" Registry.empty).2 = Some o).
Proof.
  assert (coherent (fresh_process Registry.empty)) as H1.
  { intros b op. unfold fresh_process, no_cache. simpl. discriminate. }
  assert (run [CallRegisterOrGet "tl.CoreId"; CallAccessor CoreId]
              (fresh_process Registry.empty)
          = Ok ([("tl.CoreId", {| op_name := "tl.CoreId"; op_index := 0 |});
                 ("tl.CoreId", {| op_name := "tl.CoreId"; op_index := 0 |})],
                {| registry := (RegisterOrGet "tl.CoreId" Registry.empty).2;
                   cache := set_cache CoreId
                              {| op_name := "tl.CoreId"; op_index := 0 |}
                              no_cache |})) as H2
    by (vm_compute; reflexivity).
  split; [exact H1|]. split; [exact H2|].
  exact (X5_requests_agree_on_any_registry _ _ _ _ H1 H2).
Defined.

(** X6. Once an accessor has returned an identity, every later call
    returns that same identity and changes nothing, whatever other
    accessors were called and whatever names were registered in between:
    the function-local static is initialised once and never overwritten. *)
Theorem X6_cached_identity_is_stable (b : TLBuiltin) (p : Process) (op : Op)
    (p1 : Process) (evs : list Event) (log : list (string * Op)) (p2 : Process) :
  accessor b p = Ok (op, p1) → run evs p1 = Ok (log, p2) →
  cache p2 b = Some op ∧ accessor b p2 = Ok (op, p2).
Proof.
  intros (_ & Hc & _)%accessor_Ok_inv Hr.
  pose proof (run_cache_mono evs p1 log p2 b op Hr Hc) as Hc2.
  split; [exact Hc2|]. by apply accessor_cached.
Qed.

(** X6 at [comm_put], with a call of another accessor in between. *)
Lemma X6_cached_identity_is_stable_witness :
  accessor comm_put loaded_process
  = Ok (builtin_op comm_put,
        {| registry := loaded_registry;
           cache := set_cache comm_put (builtin_op comm_put) no_cache |}) ∧
  run [CallAccessor comm_fence]
      {| registry := loaded_registry;
         cache := set_cache comm_put (builtin_op comm_put) no_cache |}
  = Ok ([(registry_name comm_fence, builtin_op comm_fence)],
        {| registry := loaded_registry;
           cache := set_cache comm_fence (builtin_op comm_fence)
                      (set_cache comm_put (builtin_op comm_put) no_cache) |}) ∧
  cache {| registry := loaded_registry;
           cache := set_cache comm_fence (builtin_op comm_fence)
                      (set_cache comm_put (builtin_op comm_put) no_cache) |}
        comm_put = Some (builtin_op comm_put) ∧
  accessor comm_put
    {| registry := loaded_registry;
       cache := set_cache comm_fence (builtin_op comm_fence)
                  (set_cache comm_put (builtin_op comm_put) no_cache) |}
  = Ok (builtin_op comm_put,
        {| registry := loaded_registry;
           cache := set_cache comm_fence (builtin_op comm_fence)
                      (set_cache comm_put (builtin_op comm_put) no_cache) |}).
Proof.
  assert (accessor comm_put loaded_process
          = Ok (builtin_op comm_put,
                {| registry := loaded_registry;
                   cache := set_cache comm_put (builtin_op comm_put) no_cache |})) as H1.
  { unfold accessor, loaded_process, Get. cbn [cache registry]. unfold no_cache at 1.
    by rewrite loaded_lookup, bind_Ok. }
  assert (run [CallAccessor comm_fence]
              {| registry := loaded_registry;
                 cache := set_cache comm_put (builtin_op comm_put) no_cache |}
          = Ok ([(registry_name comm_fence, builtin_op comm_fence)],
                {| registry := loaded_registry;
                   cache := set_cache comm_fence (builtin_op comm_fence)
                              (set_cache comm_put (builtin_op comm_put) no_cache) |})) as H2.
  { cbn [run step]. unfold accessor, Get. cbn [cache registry].
    change (set_cache comm_put (builtin_op comm_put) no_cache comm_fence) with (@None Op).
    by rewrite loaded_lookup, !bind_Ok. }
  split; [exact H1|]. split; [exact H2|].
  exact (X6_cached_identity_is_stable _ _ _ _ _ _ _ H1 H2).
Defined.

(** X7. A sequence of accessor calls succeeds exactly when every accessor
    called finds its cache filled or its prefixed name in the registry (an
    accessor called before its operator is registered is the not-found
    error); when it succeeds the registry is untouched and the caches
    filled afterwards are those filled before and those of the accessors
    called. *)
Theorem X7_accessor_calls_need_registered_names (bs : list TLBuiltin) (p : Process) :
  ((∃ log p', run (CallAccessor <$> bs) p = Ok (log, p'))
   ↔ ∀ b, b ∈ bs →
       is_Some (cache p b)
       ∨ is_Some (Registry.lookup (registry_name b) (registry p))) ∧
  (∀ b, cache p b = None →
        Registry.lookup (registry_name b) (registry p) = None →
        accessor b p = Err (NotFound (registry_name b))) ∧
  (∀ log p', run (CallAccessor <$> bs) p = Ok (log, p') →
     registry p' = registry p ∧
     ∀ b, is_Some (cache p' b) ↔ is_Some (cache p b) ∨ b ∈ bs).
Proof.
  split; [apply run_accessors_Ok|]. split.
  - intros b Hc Hl. unfold accessor, Get. by rewrite Hc, Hl.
  - intros log p' Hr. split; [by eapply run_accessors_registry|].
    intros b. by eapply run_accessors_cache.
Qed.

(** X8. Accessors commute: if two accessors succeed when called in one
    order, they succeed in the other order too, each returns the same
    identity, and the registry and all caches end up the same. *)
Theorem X8_accessors_commute (b1 b2 : TLBuiltin) (p : Process) (o1 : Op)
    (p1 : Process) (o2 : Op) (p2 : Process) :
  accessor b1 p = Ok (o1, p1) → accessor b2 p1 = Ok (o2, p2) →
  ∃ q1 q2,
    accessor b2 p = Ok (o2, q1) ∧ accessor b1 q1 = Ok (o1, q2) ∧
    registry q2 = registry p2 ∧ ∀ b, cache q2 b = cache p2 b.
Proof.
  intros H1 H2.
  pose proof H1 as (Hr1 & Hc1 & Hc1' & How1)%accessor_Ok_inv.
  pose proof H2 as (Hr2 & Hc2 & Hc2' & How2)%accessor_Ok_inv.
  destruct (decide (b2 = b1)) as [->|Hne].
  - assert (o2 = o1 ∧ p2 = p1) as [-> ->].
    { rewrite (accessor_cached _ _ _ Hc1) in H2. by injection H2 as <- <-. }
    exists p1, p1. split; [exact H1|]. split; [by apply accessor_cached|done].
  - assert (∃ q1, accessor b2 p = Ok (o2, q1)) as (q1 & Hq1).
    { unfold accessor, Get. rewrite <- (Hc1' b2 Hne), <- Hr1.
      destruct How2 as [[Hc ->]|[Hc Hl]]; rewrite Hc; [by eexists|].
      rewrite Hl, bind_Ok. by eexists. }
    pose proof Hq1 as (Hrq & Hcq & Hcq' & _)%accessor_Ok_inv.
    assert (∃ q2, accessor b1 q1 = Ok (o1, q2)) as (q2 & Hq2).
    { unfold accessor, Get. rewrite (Hcq' b1 (not_eq_sym Hne)), Hrq.
      destruct How1 as [[Hc ->]|[Hc Hl]]; rewrite Hc; [by eexists|].
      rewrite Hl, bind_Ok. by eexists. }
    pose proof Hq2 as (Hrq2 & Hcq2 & Hcq2' & _)%accessor_Ok_inv.
    exists q1, q2. split; [exact Hq1|]. split; [exact Hq2|].
    split; [congruence|]. intros b.
    destruct (decide (b = b1)) as [->|Hb1].
    + rewrite Hcq2, (Hc2' b1 (not_eq_sym Hne)). by rewrite Hc1.
    + rewrite (Hcq2' b Hb1). destruct (decide (b = b2)) as [->|Hb2].
      * by rewrite Hcq, Hc2.
      * by rewrite (Hcq' b Hb2), (Hc2' b Hb2), (Hc1' b Hb1).
Qed.

(** X8 at [comm_put] and [comm_fence] on the loaded process. *)
Lemma X8_accessors_commute_witness :
  accessor comm_put loaded_process
  = Ok (builtin_op comm_put,
        {| registry := loaded_registry;
           cache := set_cache comm_put (builtin_op comm_put) no_cache |}) ∧
  accessor comm_fence
    {| registry := loaded_registry;
       cache := set_cache comm_put (builtin_op comm_put) no_cache |}
  = Ok (builtin_op comm_fence,
        {| registry := loaded_registry;
           cache := set_cache comm_fence (builtin_op comm_fence)
                      (set_cache comm_put (builtin_op comm_put) no_cache) |}) ∧
  ∃ q1 q2,
    accessor comm_fence loaded_process = Ok (builtin_op comm_fence, q1) ∧
    accessor comm_put q1 = Ok (builtin_op comm_put, q2) ∧
    registry q2 = loaded_registry ∧
    ∀ b, cache q2 b
         = set_cache comm_fence (builtin_op comm_fence)
             (set_cache comm_put (builtin_op comm_put) no_cache) b.
Proof.
  assert (accessor comm_put loaded_process
          = Ok (builtin_op comm_put,
                {| registry := loaded_registry;
                   cache := set_cache comm_put (builtin_op comm_put) no_cache |})) as H1.
  { unfold accessor, loaded_process, Get. cbn [cache registry]. unfold no_cache at 1.
    by rewrite loaded_lookup, bind_Ok. }
  assert (accessor comm_fence
            {| registry := loaded_registry;
               cache := set_cache comm_put (builtin_op comm_put) no_cache |}
          = Ok (builtin_op comm_fence,
                {| registry := loaded_registry;
                   cache := set_cache comm_fence (builtin_op comm_fence)
                              (set_cache comm_put (builtin_op comm_put) no_cache) |})) as H2.
  { unfold accessor, Get. cbn [cache registry].
    change (set_cache comm_put (builtin_op comm_put) no_cache comm_fence) with (@None Op).
    by rewrite loaded_lookup, bind_Ok. }
  split; [exact H1|]. split; [exact H2|].
  exact (X8_accessors_commute _ _ _ _ _ _ _ H1 H2).
Defined.
